(** * Countdown solver: a shallow embedding of [countdown_solver.py]

    The Python program enumerates every value-distinct sub-tuple of the
    source numbers (a [Group]), splits each one into pairs of smaller
    groups, combines the calculations of the two halves with the four
    arithmetic operations, and finally scans all calculations for those
    closest to the target.

    Python integers are modelled by [Z], tuples by [list Z], strings by
    [string].  A raised exception ([KeyError], [IndexError], [TypeError])
    is modelled by [None] in the [option] monad.  The dictionary
    [all_groups] is iterated in insertion order by [walk], so it is an
    association list whose new keys are appended at the end. *)

From Stdlib Require Import ZArith String Ascii DecimalString Lia.
From stdpp Require Import base option list gmap strings sorting.

Open Scope Z_scope.

(** ** Python built-ins and [itertools] used by the program *)

(** [range(a, b)]. *)
Definition range (a b : Z) : list Z := seqZ a (b - a).

(** [str(n)] / [f"{n}"] for an integer. *)
Definition str (n : Z) : string := NilZero.string_of_int (Z.to_int n).

(** A loop whose body may raise. *)
Fixpoint foldM {A S : Type} (f : S → A → option S) (s : S) (l : list A)
  : option S :=
  match l with
  | [] => Some s
  | x :: r => s' ← f s x; foldM f s' r
  end.

Module itertools.

(** [combinations(l, r)]: the length-[r] subsequences of [l], in
    lexicographic order of the chosen positions. *)
Fixpoint combinations {A : Type} (l : list A) (r : nat) {struct l}
  : list (list A) :=
  match r, l with
  | O, _ => [[]]
  | S _, [] => []
  | S r', x :: t => (cons x <$> combinations t r') ++ combinations t r
  end.

(** [product(l1, l2)]: the rightmost iterable advances fastest. *)
Definition product {A B : Type} (l1 : list A) (l2 : list B) : list (A * B) :=
  a ← l1; pair a <$> l2.

(** [zip_longest(l1, l2)] with the default fill value [None]. *)
Fixpoint zip_longest {A B : Type} (l1 : list A) (l2 : list B) {struct l1}
  : list (option A * option B) :=
  match l1, l2 with
  | [], _ => (λ b, (None, Some b)) <$> l2
  | a :: r1, [] => (Some a, None) :: zip_longest r1 []
  | a :: r1, b :: r2 => (Some a, Some b) :: zip_longest r1 r2
  end.

End itertools.

(** ** class Calculation *)

Module Calculation.

Record t : Type := mk {
  expr : string;
  result : Z;
  is_singleton : bool
}.

Definition singleton (n : Z) : t := mk (str n) n true.

Definition operations (x y : Z) : list (Z * string) :=
  [(x + y, "+"%string)]
  ++ (if y <? x then [(x - y, "-"%string)] else [])
  ++ (if (1 <? y) && (1 <? x) then [(x * y, "x"%string)] else [])
  ++ (if (1 <? y) && (x mod y =? 0) then [(x / y, "/"%string)] else []).

(** The operand text: parenthesised unless it is a bare number. *)
Definition operand (c : t) : string :=
  if is_singleton c then expr c else "(" +:+ expr c +:+ ")".

Definition generate (calca calcb : t) : list t :=
  let '(calca, calcb) :=
    if result calca <? result calcb then (calcb, calca) else (calca, calcb) in
  (λ '(result, op),
     mk (operand calca +:+ " " +:+ op +:+ " " +:+ operand calcb) result false)
    <$> operations (result calca) (result calcb).

End Calculation.

(** ** [functools.lru_cache]

    [_halfbinom] is decorated with [lru_cache()], whose memo table lives
    as long as the process.  The table is a list of [(arguments, value)]
    entries, most recently used first, holding at most [maxsize] entries:
    a hit moves its entry to the front, a miss runs the function, stores
    the value at the front and drops the least recently used entry when
    the table is full. *)

Module lru_cache.

Definition maxsize : nat := 128.

Definition t : Type := list (Z * Z * option Z).

Definition call (f : Z → Z → option Z) (n k : Z) (cache : t)
  : option Z * t :=
  match list_find (λ e, e.1 = (n, k)) cache with
  | Some (i, e) => (e.2, e :: delete i cache)
  | None => let v := f n k in (v, take maxsize ((n, k, v) :: cache))
  end.

(** A table that only holds values the function really returns: the
    tables a process can reach from the empty one. *)
Definition consistent (f : Z → Z → option Z) (cache : t) : Prop :=
  Forall (λ e, e.2 = f e.1.1 e.1.2) cache.

End lru_cache.

(** Code that may raise and that reads and updates the memo table: the
    table survives a raised exception. *)
Definition cached (A : Type) : Type := lru_cache.t → option A * lru_cache.t.

#[global] Instance cached_ret : MRet cached := λ A x cache, (Some x, cache).

#[global] Instance cached_bind : MBind cached := λ A B f m cache,
  match m cache with
  | (Some x, cache') => f x cache'
  | (None, cache') => (None, cache')
  end.

(** Lifting of code that does not touch the memo table. *)
Definition lift {A : Type} (x : option A) : cached A := λ cache, (x, cache).

Fixpoint foldM_cached {A S : Type} (f : S → A → cached S) (s : S)
    (l : list A) : cached S :=
  match l with
  | [] => mret s
  | x :: r => s' ← f s x; foldM_cached f s' r
  end.

(** ** class Group *)

Module Group.

#[warnings="-register-all"]
Inductive t : Type := mk {
  numbers : list Z;
  size : Z;
  partitions : list (t * t);
  calculations : list Calculation.t
}.

(** The dictionary [all_groups], in insertion order. *)
Definition dict : Type := list (list Z * t).

(** [d[key]]; a missing key raises [KeyError]. *)
Fixpoint get (d : dict) (key : list Z) : option t :=
  match d with
  | [] => None
  | (k, group) :: rest => if decide (k = key) then Some group else get rest key
  end.

(** [key in d] *)
Definition contains (d : dict) (key : list Z) : bool :=
  bool_decide (is_Some (get d key)).

(** [next(elems, None)] *)
Definition next (elems : list Z) : option Z * list Z :=
  match elems with
  | [] => (None, [])
  | k :: rest => (Some k, rest)
  end.

Fixpoint filtering_loop (iterable : list Z) (k : option Z) (elems : list Z)
  : list Z :=
  match iterable with
  | [] => []
  | n :: rest =>
      if decide (Some n = k)
      then let '(k', elems') := next elems in filtering_loop rest k' elems'
      else n :: filtering_loop rest k elems
  end.

Definition filtering (iterable elements : list Z) : list Z :=
  let '(k, elems) := next elements in filtering_loop iterable k elems.

(** The body of [_halfbinom]; [None] is Python's [None]. *)
Definition _halfbinom (n k : Z) : option Z :=
  if decide (n mod 2 = 1) then None
  else
    let prod :=
      fold_left (λ prod '(m, l), (prod * m) / l)
                (zip (reverse (range (n + 1 - k) (n + 1))) (range 1 (k + 1)))
                1 in
    Some (prod / 2).

(** The loop of [_paired_combinations]; [cnt] is the [enumerate] index. *)
Fixpoint paired_loop (numbers : list Z) (limit : option Z) (cnt : Z)
    (combs : list (list Z)) : list (list Z * list Z) :=
  match combs with
  | [] => []
  | numbers1 :: rest =>
      let numbers2 := filtering numbers numbers1 in
      (numbers1, numbers2) ::
        (if decide (Some cnt = limit) then []
         else paired_loop numbers limit (cnt + 1) rest)
  end.

Definition _paired_combinations (numbers : list Z) (m : nat)
    (limit : option Z) : list (list Z * list Z) :=
  paired_loop numbers limit 1 (itertools.combinations numbers m).

(** One step of the inner loop of [_partition_into_unique_pairs]: the
    state is the set [unique_numbers] and the pairs yielded so far. *)
Definition partition_step (all_groups : dict)
    (st : gset (list Z) * list (t * t)) (pair : list Z * list Z)
  : option (gset (list Z) * list (t * t)) :=
  let '(unique_numbers, yielded) := st in
  let '(numbers1, numbers2) := pair in
  if decide (numbers1 ∈ unique_numbers) then Some st
  else
    group1 ← get all_groups numbers1;
    group2 ← get all_groups numbers2;
    Some ({[numbers1]} ∪ unique_numbers, yielded ++ [(group1, group2)]).

(** The body of [_partition_into_unique_pairs] once the value of
    [_halfbinom(size, size//2)] is known.  A [None] produced by
    [zip_longest] for [m] would make [combinations] raise. *)
Definition partition_with (numbers : list Z) (size : Z) (all_groups : dict)
    (halfbinom : option Z) : option (list (t * t)) :=
  let limits := [halfbinom] in
  snd <$>
    foldM (λ st '(m, limit),
             m ← m;
             foldM (partition_step all_groups) st
                   (_paired_combinations numbers (Z.to_nat m) (mjoin limit)))
          (∅, [])
          (itertools.zip_longest (range ((size + 1) / 2) size) limits).

Definition _partition_into_unique_pairs (numbers : list Z) (size : Z)
    (all_groups : dict) : option (list (t * t)) :=
  if decide (size = 1) then Some []
  else partition_with numbers size all_groups (_halfbinom size (size / 2)).

Definition _perform_calculations (numbers : list Z) (size : Z)
    (partitions : list (t * t)) : option (list Calculation.t) :=
  if decide (size = 1) then
    n ← numbers !! 0%nat; Some [Calculation.singleton n]
  else
    Some ('(group1, group2) ← partitions;
          '(calc1, calc2) ←
             itertools.product (calculations group1) (calculations group2);
          Calculation.generate calc1 calc2).

(** [Group(numbers, all_groups)] *)
Definition init (numbers : list Z) (all_groups : dict) : option t :=
  let size := Z.of_nat (length numbers) in
  partitions ← _partition_into_unique_pairs numbers size all_groups;
  calculations ← _perform_calculations numbers size partitions;
  Some (mk numbers size partitions calculations).

(** The same two functions with the memo table of [_halfbinom] made
    explicit: the call goes through [lru_cache]. *)
Definition _partition_into_unique_pairs_cached (numbers : list Z) (size : Z)
    (all_groups : dict) : cached (list (t * t)) :=
  if decide (size = 1) then mret []
  else
    λ cache,
      let '(halfbinom, cache') :=
        lru_cache.call _halfbinom size (size / 2) cache in
      (partition_with numbers size all_groups halfbinom, cache').

Definition init_cached (numbers : list Z) (all_groups : dict) : cached t :=
  let size := Z.of_nat (length numbers) in
  partitions ← _partition_into_unique_pairs_cached numbers size all_groups;
  calculations ← lift (_perform_calculations numbers size partitions);
  mret (mk numbers size partitions calculations).

End Group.

(** ** class Solutions *)

Module Solutions.

Record t : Type := mk {
  all_numbers : list Z;
  size : Z;
  all_groups : Group.dict
}.

Definition _unique_groups (all_numbers : list Z) (size : Z)
  : option Group.dict :=
  foldM (λ all_groups m,
           foldM (λ all_groups numbers,
                    if Group.contains all_groups numbers then Some all_groups
                    else
                      group ← Group.init numbers all_groups;
                      Some (all_groups ++ [(numbers, group)]))
                 all_groups
                 (itertools.combinations all_numbers (Z.to_nat m)))
        []
        (range 1 (size + 1)).

Definition init (numbers : list Z) : option t :=
  let size := Z.of_nat (length numbers) in
  all_groups ← _unique_groups numbers size;
  Some (mk numbers size all_groups).

(** The constructor with the memo table of [_halfbinom] made explicit. *)
Definition _unique_groups_cached (all_numbers : list Z) (size : Z)
  : cached Group.dict :=
  foldM_cached
    (λ all_groups m,
       foldM_cached
         (λ all_groups numbers,
            if Group.contains all_groups numbers then mret all_groups
            else
              group ← Group.init_cached numbers all_groups;
              mret (all_groups ++ [(numbers, group)]))
         all_groups
         (itertools.combinations all_numbers (Z.to_nat m)))
    []
    (range 1 (size + 1)).

Definition init_cached (numbers : list Z) : cached t :=
  let size := Z.of_nat (length numbers) in
  all_groups ← _unique_groups_cached numbers size;
  mret (mk numbers size all_groups).

(** [walk]: every calculation of every group, in dictionary order. *)
Definition walk (self : t) : list Calculation.t :=
  kv ← all_groups self; Group.calculations kv.2.

End Solutions.

(** ** The driver [countdown_solver] *)

(** [sorted(unsorted_numbers, reverse=True)] *)
Definition sorted_reverse (l : list Z) : list Z := merge_sort Z.ge l.

(** One iteration of the scanning loop; the state is
    [(smallest_difference, bestresults)]. *)
Definition scan_step (target : Z) (st : Z * list Calculation.t)
    (calculation : Calculation.t) : Z * list Calculation.t :=
  let '(smallest_difference, bestresults) := st in
  let diff := Z.abs (Calculation.result calculation - target) in
  if diff <=? smallest_difference then
    if diff <? smallest_difference then (diff, [calculation])
    else (smallest_difference, bestresults ++ [calculation])
  else st.

(** The loop over [solutions.walk()], started from
    [smallest_difference = target] and [bestresults = []]. *)
Definition scan (target : Z) (calculations : list Calculation.t)
  : Z * list Calculation.t :=
  fold_left (scan_step target) calculations (target, []).

(** [countdown_solver], from the values returned by [cli()] to the
    arguments [(smallest_difference, bestresults)] passed to [output]. *)
Definition countdown_solver (target : Z) (unsorted_numbers : list Z)
  : option (Z * list Calculation.t) :=
  let numbers := sorted_reverse unsorted_numbers in
  solutions ← Solutions.init numbers;
  Some (scan target (Solutions.walk solutions)).

(** One run of [countdown_solver] inside a process whose memo table for
    [_halfbinom] is [cache]; the table is handed on to the next run. *)
Definition countdown_solver_cached (target : Z) (unsorted_numbers : list Z)
  : cached (Z * list Calculation.t) :=
  let numbers := sorted_reverse unsorted_numbers in
  solutions ← Solutions.init_cached numbers;
  mret (scan target (Solutions.walk solutions)).

(** [output]: the lines printed after the header. *)
Definition output_lines (results : list Calculation.t) : list string :=
  (λ c, str (Calculation.result c) +:+ " = " +:+ Calculation.expr c) <$> results.

(** ** Notions used to state the properties *)

(** The binomial coefficient, by Pascal's rule. *)
Fixpoint binomial (n k : nat) : nat :=
  match n, k with
  | _, O => 1
  | O, S _ => 0
  | S n', S k' => binomial n' k' + binomial n' k
  end.

Definition is_digit (c : ascii) : bool :=
  (48 <=? nat_of_ascii c)%nat && (nat_of_ascii c <=? 57)%nat.

(** The number of numbers written in a text: its maximal runs of decimal
    digits.  [in_number] tells whether the previous character was a
    digit. *)
Fixpoint count_numbers (in_number : bool) (s : string) : nat :=
  match s with
  | EmptyString => 0
  | String c rest =>
      ((if is_digit c && negb in_number then 1 else 0)
       + count_numbers (is_digit c) rest)%nat
  end.

(** How many source numbers the expression of a calculation uses. *)
Definition numbers_used (c : Calculation.t) : nat :=
  count_numbers false (Calculation.expr c).

(** What the constructor establishes for every group: its size is the
    length of its tuple, the sizes of the two halves of each partition
    add up to it, and each of its calculations uses as many numbers as
    the tuple has and is positive when the numbers of the tuple are. *)
Definition group_ok (g : Group.t) : Prop :=
  Group.size g = Z.of_nat (length (Group.numbers g))
  ∧ Forall (λ p, Group.size p.1 + Group.size p.2 = Group.size g
                 ∧ 0 < Group.size p.1 ∧ 0 < Group.size p.2)
           (Group.partitions g)
  ∧ Forall (λ c, numbers_used c = length (Group.numbers g)
                 ∧ (Forall (λ n, 0 < n) (Group.numbers g)
                    → 0 < Calculation.result c))
           (Group.calculations g).

(** The dictionary while sizes up to [m] are being built: every entry is
    keyed by the tuple of its group, a subsequence of the source numbers
    of length 1 to [m], and the entries come in order of length. *)
Definition dict_ok (all_numbers : list Z) (m : nat) (d : Group.dict) : Prop :=
  Forall (λ kv, Group.numbers kv.2 = kv.1
                ∧ kv.1 `sublist_of` all_numbers
                ∧ (0 < length kv.1 ≤ m)%nat
                ∧ group_ok kv.2) d
  ∧ StronglySorted (λ kv kv', (length kv.1 ≤ length kv'.1)%nat) d.

(** Every subsequence of length 1 to [m] has its group. *)
Definition dict_complete (all_numbers : list Z) (m : nat) (d : Group.dict)
  : Prop :=
  ∀ c, c `sublist_of` all_numbers → (0 < length c ≤ m)%nat →
       is_Some (Group.get d c).

(** A pair of groups found in the dictionary under a proper, non-empty
    subsequence of [numbers] and under what [filtering] leaves of it. *)
Definition child_pair (numbers : list Z) (d : Group.dict)
    (p : Group.t * Group.t) : Prop :=
  ∃ numbers1,
    numbers1 `sublist_of` numbers
    ∧ (0 < length numbers1 < length numbers)%nat
    ∧ Group.get d numbers1 = Some p.1
    ∧ Group.get d (Group.filtering numbers numbers1) = Some p.2.

(** [agrees c x]: from a consistent memo table of [_halfbinom], the code
    [c] returns what the memo-free reading [x] returns, and it leaves a
    consistent table. *)
Definition agrees {A : Type} (c : cached A) (x : option A) : Prop :=
  ∀ cache,
    lru_cache.consistent Group._halfbinom cache →
    ∃ cache',
      c cache = (x, cache')
      ∧ lru_cache.consistent Group._halfbinom cache'.

(** The distance of a calculation from the target, as the scanning loop
    computes it. *)
Definition diff (target : Z) (c : Calculation.t) : Z :=
  Z.abs (Calculation.result c - target).

(** The selections [numbers1] that the loops of
    [_partition_into_unique_pairs] go through, in order: for each size
    [m] paired with its limit, the first components of
    [_paired_combinations]. *)
Definition selections_of (numbers : list Z)
    (entries : list (option Z * option (option Z))) : list (list Z) :=
  '(m, limit) ← entries;
  match m with
  | Some m' =>
      fst <$> Group._paired_combinations numbers (Z.to_nat m') (mjoin limit)
  | None => []
  end.

Definition selections (numbers : list Z) (halfbinom : option Z)
  : list (list Z) :=
  let size := Z.of_nat (length numbers) in
  selections_of numbers
    (itertools.zip_longest (range ((size + 1) / 2) size) [halfbinom]).

(** The first groups of a list of partitions, by their tuples. *)
Definition firsts (partitions : list (Group.t * Group.t)) : list (list Z) :=
  (λ p, Group.numbers p.1) <$> partitions.

(** The state of the loops of [_partition_into_unique_pairs] after the
    selections [visited]: [unique_numbers] holds them, and each has been
    yielded once, paired with the group of what [filtering] leaves. *)
Definition partition_state_ok (numbers : list Z) (d : Group.dict)
    (visited : list (list Z))
    (st : gset (list Z) * list (Group.t * Group.t)) : Prop :=
  (∀ numbers1, numbers1 ∈ st.1 ↔ numbers1 ∈ visited)
  ∧ NoDup (firsts st.2)
  ∧ (∀ numbers1, numbers1 ∈ firsts st.2 ↔ numbers1 ∈ visited)
  ∧ Forall (λ p, Group.get d (Group.numbers p.1) = Some p.1
                 ∧ Group.get d (Group.numbers p.2) = Some p.2
                 ∧ Group.numbers p.2
                   = Group.filtering numbers (Group.numbers p.1)) st.2.

(** * Properties *)

(** ** Multiset complement: [Group.filtering] *)

Section filtering.

Lemma filtering_nil_r iterable : Group.filtering iterable [] = iterable.
Proof.
  unfold Group.filtering; simpl.
  induction iterable as [|n rest IH]; simpl; [done|].
  by rewrite IH.
Qed.

Lemma filtering_nil_l elements : Group.filtering [] elements = [].
Proof. by destruct elements. Qed.

Lemma filtering_cons n rest k elems :
  Group.filtering (n :: rest) (k :: elems) =
    if decide (n = k) then Group.filtering rest elems
    else n :: Group.filtering rest (k :: elems).
Proof.
  unfold Group.filtering; simpl.
  destruct (decide (n = k)) as [->|Hne].
  - rewrite decide_True by done. by destruct elems.
  - rewrite decide_False by congruence. done.
Qed.

(** What is left over is always a subsequence of the iterable. *)
Lemma filtering_sublist iterable elements :
  Group.filtering iterable elements `sublist_of` iterable.
Proof.
  revert elements.
  induction iterable as [|n rest IH]; intros elements.
  - rewrite filtering_nil_l. constructor.
  - destruct elements as [|k elems].
    + by rewrite filtering_nil_r.
    + rewrite filtering_cons. case_decide.
      * by apply sublist_cons.
      * by apply sublist_skip.
Qed.

(** When [elements] is a subsequence, every one of its values is
    consumed, and exactly once. *)
Lemma filtering_Permutation iterable elements :
  elements `sublist_of` iterable →
  elements ++ Group.filtering iterable elements ≡ₚ iterable.
Proof.
  revert elements.
  induction iterable as [|n rest IH]; intros elements Hsub.
  - apply sublist_nil_r in Hsub as ->. by rewrite filtering_nil_l.
  - destruct elements as [|k elems].
    + by rewrite filtering_nil_r.
    + rewrite filtering_cons. case_decide as Hnk.
      * subst k. simpl. f_equiv. apply IH.
        apply sublist_cons_r in Hsub as [Hsub|(l' & [= <-] & Hsub)]; [|done].
        etrans; [|apply Hsub]. by apply sublist_cons.
      * rewrite <-Permutation_middle. f_equiv. apply IH.
        apply sublist_cons_r in Hsub as [Hsub|(l' & [= <-] & Hsub)];
          [done|congruence].
Qed.

Lemma filtering_length iterable elements :
  elements `sublist_of` iterable →
  (length elements + length (Group.filtering iterable elements)
   = length iterable)%nat.
Proof.
  intros Hsub. rewrite <-length_app.
  by rewrite (filtering_Permutation _ _ Hsub).
Qed.

End filtering.

(** C7. For every [parent] and every [sub] occurring in order as a
    subsequence of [parent], [filtering parent sub] is the multiset
    difference of [parent] and [sub] (putting [sub] back gives a
    permutation of [parent], so each value of [sub] is consumed exactly
    once), its elements keep their relative order in [parent], and
    filtering (4,2,1,1) by (1,) leaves (4,2,1). *)
Theorem filtering_multiset_difference (parent sub : list Z) :
  sub `sublist_of` parent →
  sub ++ Group.filtering parent sub ≡ₚ parent
  ∧ Group.filtering parent sub `sublist_of` parent
  ∧ (∀ v : Z,
       length (filter (λ n, n = v) (Group.filtering parent sub))
       = (length (filter (λ n, n = v) parent)
          - length (filter (λ n, n = v) sub))%nat)
  ∧ Group.filtering [4; 2; 1; 1] [1] = [4; 2; 1].
Proof.
  intros Hsub. split_and!.
  - by apply filtering_Permutation.
  - apply filtering_sublist.
  - intros v. rewrite <-(filtering_Permutation _ _ Hsub) at 2.
    rewrite filter_app, length_app. lia.
  - reflexivity.
Qed.

Lemma filtering_multiset_difference_witness :
  [5; 3] ++ Group.filtering [7; 5; 5; 3] [5; 3] ≡ₚ [7; 5; 5; 3]
  ∧ Group.filtering [7; 5; 5; 3] [5; 3] = [7; 5].
Proof.
  split; [|reflexivity].
  apply (filtering_multiset_difference [7; 5; 5; 3] [5; 3]).
  apply sublist_cons, sublist_skip, sublist_cons, sublist_skip, sublist_nil.
Defined.


(** ** The four operations: [Calculation.operations] *)

Section operations.

Lemma elem_of_operations x y r op :
  (r, op) ∈ Calculation.operations x y ↔
    (r = x + y ∧ op = "+"%string)
    ∨ (y < x ∧ r = x - y ∧ op = "-"%string)
    ∨ (1 < y ∧ 1 < x ∧ r = x * y ∧ op = "x"%string)
    ∨ (1 < y ∧ x mod y = 0 ∧ r = x / y ∧ op = "/"%string).
Proof.
  unfold Calculation.operations.
  rewrite !elem_of_app, list_elem_of_singleton.
  destruct (Z.ltb_spec y x), (Z.ltb_spec 1 y), (Z.ltb_spec 1 x),
    (Z.eqb_spec (x mod y) 0); simpl;
    rewrite ?list_elem_of_singleton, ?elem_of_nil;
    split; intros H'; destruct_or?; destruct_and?; simplify_eq;
    try lia; eauto 10.
Qed.

(** [generate] always hands the larger result to [operations] first. *)
Lemma generate_results calca calcb :
  Calculation.result <$> Calculation.generate calca calcb
  = fst <$> Calculation.operations
              (Calculation.result calca `max` Calculation.result calcb)
              (Calculation.result calca `min` Calculation.result calcb).
Proof.
  unfold Calculation.generate.
  destruct (Z.ltb_spec (Calculation.result calca) (Calculation.result calcb)).
  - rewrite Z.max_r, Z.min_l by lia. rewrite <-list_fmap_compose.
    apply list_fmap_ext. by intros ? [??].
  - rewrite Z.max_l, Z.min_r by lia. rewrite <-list_fmap_compose.
    apply list_fmap_ext. by intros ? [??].
Qed.

Lemma operations_positive x y r op :
  0 < y → y ≤ x → (r, op) ∈ Calculation.operations x y → 0 < r.
Proof.
  intros Hy Hxy. rewrite elem_of_operations.
  intros [[-> _]|[(? & -> & _)|[(? & ? & -> & _)|(? & Hmod & -> & _)]]];
    try lia.
  apply Z.div_str_pos. lia.
Qed.

Lemma generate_positive calca calcb c :
  0 < Calculation.result calca → 0 < Calculation.result calcb →
  c ∈ Calculation.generate calca calcb → 0 < Calculation.result c.
Proof.
  intros Ha Hb Hc.
  apply (list_elem_of_fmap_2 Calculation.result) in Hc.
  rewrite generate_results in Hc.
  apply list_elem_of_fmap in Hc as ([r op] & -> & Hc).
  eapply operations_positive; [| |exact Hc]; lia.
Qed.

End operations.

(** C2. For positive integers [x ≥ y], [operations x y] emits exactly:
    [(x+y, "+")] always; [(x-y, "-")] iff [x > y]; [(x*y, "x")] iff
    [x > 1] and [y > 1]; [(x/y, "/")], an exact quotient, iff [y > 1] and
    [y] divides [x].  Hence a product or quotient is never emitted when an
    operand is 1, an emitted difference is positive, and [generate] calls
    [operations] with the larger result first. *)
Theorem operations_exact (x y r : Z) (op : string) :
  0 < y → y ≤ x →
  ((r, op) ∈ Calculation.operations x y ↔
     (r = x + y ∧ op = "+"%string)
     ∨ (x > y ∧ r = x - y ∧ op = "-"%string)
     ∨ (x > 1 ∧ y > 1 ∧ r = x * y ∧ op = "x"%string)
     ∨ (y > 1 ∧ (y | x) ∧ r * y = x ∧ op = "/"%string))
  ∧ ((r, "x"%string) ∈ Calculation.operations x y
     ∨ (r, "/"%string) ∈ Calculation.operations x y → x ≠ 1 ∧ y ≠ 1)
  ∧ ((r, "-"%string) ∈ Calculation.operations x y → 0 < r)
  ∧ (∀ calca calcb,
       Calculation.result <$> Calculation.generate calca calcb
       = fst <$> Calculation.operations
                   (Calculation.result calca `max` Calculation.result calcb)
                   (Calculation.result calca `min` Calculation.result calcb)).
Proof.
  intros Hy Hxy. split_and!.
  - rewrite elem_of_operations. split.
    + intros [?|[?|[?|(? & Hmod & -> & ->)]]]; [intuition lia..|].
      right; right; right. split_and!; [lia| |  |done].
      * apply Z.mod_divide; [lia|done].
      * rewrite Z.mul_comm. symmetry. apply Z.div_exact; [lia|done].
    + intros [?|[?|[?|(? & Hdiv & Hr & ->)]]]; [intuition lia..|].
      right; right; right. split_and!; [lia| | |done].
      * apply Z.mod_divide; [lia|done].
      * subst x. rewrite Z.div_mul; lia.
  - rewrite !elem_of_operations. intros [H'|H']; destruct_or?;
      destruct_and?; simplify_eq; lia.
  - rewrite elem_of_operations. intros H'; destruct_or?;
      destruct_and?; simplify_eq; lia.
  - apply generate_results.
Qed.

Lemma operations_exact_witness :
  (3, "/"%string) ∈ Calculation.operations 6 2 ↔
    (3 = 6 + 2 ∧ "/"%string = "+"%string)
    ∨ (6 > 2 ∧ 3 = 6 - 2 ∧ "/"%string = "-"%string)
    ∨ (6 > 1 ∧ 2 > 1 ∧ 3 = 6 * 2 ∧ "/"%string = "x"%string)
    ∨ (2 > 1 ∧ (2 | 6) ∧ 3 * 2 = 6 ∧ "/"%string = "/"%string).
Proof.
  apply (operations_exact 6 2 3 "/"); lia.
Defined.


(** ** The half-binomial helper: [Group._halfbinom] *)

Section halfbinom.

Local Open Scope nat_scope.

Lemma binomial_0_r n : binomial n 0 = 1.
Proof. by destruct n. Qed.

Lemma binomial_gt n k : n < k → binomial n k = 0.
Proof.
  revert k. induction n as [|n IH]; intros [|k] Hlt; simpl; try lia.
  rewrite !IH by lia. done.
Qed.

(** The quotient rule the loop of [_halfbinom] relies on. *)
Lemma binomial_step n k : binomial n (S k) * S k = binomial n k * (n - k).
Proof.
  revert k. induction n as [|n IH]; intros k.
  - simpl. lia.
  - destruct k as [|k].
    + simpl. rewrite binomial_0_r. specialize (IH 0).
      rewrite binomial_0_r in IH. lia.
    + change (binomial (S n) (S (S k)))
        with (binomial n (S k) + binomial n (S (S k))).
      change (binomial (S n) (S k)) with (binomial n k + binomial n (S k)).
      pose proof (IH k) as IH1. pose proof (IH (S k)) as IH2.
      destruct (decide (k < n)) as [Hlt|Hge].
      * replace (S n - S k) with (n - k) by lia.
        replace (n - k) with (S (n - S k)) in * by lia. lia.
      * rewrite (binomial_gt n (S k)), (binomial_gt n (S (S k))) by lia.
        replace (S n - S k) with 0 by lia. lia.
Qed.

Lemma binomial_central j : binomial (2 * S j) (S j) = 2 * binomial (2 * j + 1) j.
Proof.
  replace (2 * S j) with (S (2 * j + 1)) by lia.
  change (binomial (S (2 * j + 1)) (S j))
    with (binomial (2 * j + 1) j + binomial (2 * j + 1) (S j)).
  pose proof (binomial_step (2 * j + 1) j) as Hstep.
  replace (2 * j + 1 - j) with (S j) in Hstep by lia.
  apply Nat.mul_cancel_r in Hstep; lia.
Qed.

Local Open Scope Z_scope.

Lemma reverse_range (n : Z) (k : nat) :
  reverse (range (n + 1 - Z.of_nat k) (n + 1))
  = (λ i : nat, n - Z.of_nat i) <$> seq 0 k.
Proof.
  unfold range. replace (n + 1 - (n + 1 - Z.of_nat k)) with (Z.of_nat k) by lia.
  induction k as [|k IH].
  - done.
  - rewrite seqZ_cons by lia. rewrite reverse_cons.
    replace (Z.succ (n + 1 - Z.of_nat (S k))) with (n + 1 - Z.of_nat k) by lia.
    replace (Z.pred (Z.of_nat (S k))) with (Z.of_nat k) by lia.
    rewrite IH, seq_S, fmap_app. simpl. do 2 f_equal. lia.
Qed.

Lemma range_from_1 (k : nat) :
  range 1 (Z.of_nat k + 1) = (λ i : nat, Z.of_nat i + 1) <$> seq 0 k.
Proof.
  unfold range, seqZ. replace (Z.of_nat k + 1 - 1) with (Z.of_nat k) by lia.
  by rewrite Nat2Z.id.
Qed.

Lemma zip_fmap_same {A B C} (f : A → B) (g : A → C) (l : list A) :
  zip (f <$> l) (g <$> l) = (λ x, (f x, g x)) <$> l.
Proof. induction l; simpl; [done|]. by f_equal. Qed.

(** After [i] iterations the running product is the binomial
    coefficient [C(n, i)]; every division is exact. *)
Lemma halfbinom_loop (n k : nat) :
  fold_left (λ prod '(m, l), (prod * m) / l)
            (zip (reverse (range (Z.of_nat n + 1 - Z.of_nat k) (Z.of_nat n + 1)))
                 (range 1 (Z.of_nat k + 1)))
            1
  = Z.of_nat (binomial n k).
Proof.
  rewrite reverse_range, range_from_1, zip_fmap_same.
  induction k as [|k IH].
  - simpl. by rewrite binomial_0_r.
  - rewrite seq_S, fmap_app, fold_left_app, IH. simpl.
    pose proof (binomial_step n k) as Hstep.
    destruct (decide (k ≤ n)%nat) as [Hle|Hgt].
    + replace (Z.of_nat n - Z.of_nat k) with (Z.of_nat (n - k)) by lia.
      rewrite <-Nat2Z.inj_mul, <-Hstep, Nat2Z.inj_mul.
      replace (Z.of_nat k + 1) with (Z.of_nat (S k)) by lia.
      apply Z.div_mul. lia.
    + rewrite (binomial_gt n k), (binomial_gt n (S k)) by lia. done.
Qed.

Lemma halfbinom_even (n : Z) :
  0 < n → n mod 2 = 0 →
  Group._halfbinom n (n / 2)
  = Some (Z.of_nat (binomial (Z.to_nat n) (Z.to_nat (n / 2))) / 2)
  ∧ 2 * (Z.of_nat (binomial (Z.to_nat n) (Z.to_nat (n / 2))) / 2)
    = Z.of_nat (binomial (Z.to_nat n) (Z.to_nat (n / 2))).
Proof.
  intros Hpos Heven.
  assert (∃ j : nat, n = Z.of_nat (2 * S j)) as [j ->].
  { exists (Z.to_nat (n / 2) - 1)%nat.
    pose proof (Z.div_mod n 2 ltac:(lia)). lia. }
  replace (Z.of_nat (2 * S j) / 2) with (Z.of_nat (S j)).
  2:{ rewrite Nat2Z.inj_mul, Z.mul_comm, Z.div_mul; lia. }
  rewrite !Nat2Z.id. split.
  - unfold Group._halfbinom. rewrite decide_False by lia.
    by rewrite halfbinom_loop.
  - rewrite binomial_central, Nat2Z.inj_mul.
    change (Z.of_nat 2) with 2. rewrite (Z.mul_comm 2 (Z.of_nat _)).
    rewrite Z.div_mul by lia. lia.
Qed.

Lemma halfbinom_odd (n k : Z) : n mod 2 = 1 → Group._halfbinom n k = None.
Proof. intros Hodd. unfold Group._halfbinom. by rewrite decide_True. Qed.

End halfbinom.


(** ** The memo table of [_halfbinom] *)

Section memo.

Variable f : Z → Z → option Z.

Lemma call_consistent n k cache :
  lru_cache.consistent f cache →
  ∃ cache',
    lru_cache.call f n k cache = (f n k, (n, k, f n k) :: cache')
    ∧ lru_cache.consistent f ((n, k, f n k) :: cache').
Proof.
  intros Hc. unfold lru_cache.call.
  destruct (list_find _ cache) as [[i [[n' k'] v]]|] eqn:Hfind.
  - apply list_find_Some in Hfind as (Hi & Hkey & _). simpl in Hkey.
    injection Hkey as -> ->.
    assert (v = f n k) as ->.
    { eapply Forall_lookup_1 in Hc; [|exact Hi]. done. }
    exists (delete i cache). split; [done|].
    apply Forall_cons. split; [done|]. by apply Forall_delete.
  - exists (take (pred lru_cache.maxsize) cache). split; [done|].
    apply Forall_cons. split; [done|]. by apply Forall_take.
Qed.

End memo.

Section group_cached.

(** Under a consistent memo table the partition builder computes what
    the memo-free reading of the code computes, and the call of the
    helper is recorded at the front of the table. *)
Lemma partition_cached numbers size all_groups cache :
  lru_cache.consistent Group._halfbinom cache →
  size ≠ 1 →
  ∃ cache',
    Group._partition_into_unique_pairs_cached numbers size all_groups cache
    = (Group._partition_into_unique_pairs numbers size all_groups,
       (size, size / 2, Group._halfbinom size (size / 2)) :: cache')
    ∧ lru_cache.consistent Group._halfbinom
        ((size, size / 2, Group._halfbinom size (size / 2)) :: cache').
Proof.
  intros Hc Hsize.
  unfold Group._partition_into_unique_pairs_cached,
    Group._partition_into_unique_pairs.
  rewrite !decide_False by done.
  destruct (call_consistent Group._halfbinom size (size / 2) cache Hc)
    as (cache' & -> & Hc').
  by exists cache'.
Qed.

End group_cached.





(** ** Loops that may raise *)

Section foldM.

Context {A S : Type} (f : S → A → option S).

(** A loop invariant indexed by the part of the list already visited
    proves that no iteration raises and that the invariant holds at
    the end. *)
Lemma foldM_invariant_prefix (I : list A → S → Prop) (l : list A) (s : S) :
  I [] s →
  (∀ l1 x l2 s, l = l1 ++ x :: l2 → I l1 s →
                ∃ s', f s x = Some s' ∧ I (l1 ++ [x]) s') →
  ∃ s', foldM f s l = Some s' ∧ I l s'.
Proof.
  intros Hinit Hstep.
  cut (∀ l2 l1 s, l = l1 ++ l2 → I l1 s →
                  ∃ s', foldM f s l2 = Some s' ∧ I l s').
  { intros Hgen. by apply (Hgen l [] s). }
  clear s Hinit. intros l2.
  induction l2 as [|x l2 IH]; intros l1 s Hl HI.
  - rewrite app_nil_r in Hl. subst l1. by exists s.
  - destruct (Hstep l1 x l2 s Hl HI) as (s1 & Hs1 & HI1).
    simpl. rewrite Hs1. simpl. apply (IH (l1 ++ [x])); [|done].
    by rewrite <-app_assoc.
Qed.

Lemma foldM_invariant (I : S → Prop) (l : list A) (s : S) :
  I s →
  (∀ x s, x ∈ l → I s → ∃ s', f s x = Some s' ∧ I s') →
  ∃ s', foldM f s l = Some s' ∧ I s'.
Proof.
  intros Hinit Hstep.
  apply (foldM_invariant_prefix (λ _, I)); [done|].
  intros l1 x l2 s1 -> HI. apply Hstep; [|done].
  apply elem_of_app. right. constructor.
Qed.

End foldM.

(** ** [itertools.combinations] *)

Section combinations.

Context {A : Type}.
Implicit Types l c : list A.

Lemma combinations_0 l : itertools.combinations l 0 = [[]].
Proof. by destruct l. Qed.

Lemma combinations_sublist l r c :
  c ∈ itertools.combinations l r → c `sublist_of` l ∧ length c = r.
Proof.
  revert r c. induction l as [|x t IH]; intros [|r] c; simpl.
  - intros ->%list_elem_of_singleton. split; [constructor|done].
  - by intros ?%elem_of_nil.
  - intros ->%list_elem_of_singleton. split; [apply sublist_nil_l|done].
  - rewrite elem_of_app, list_elem_of_fmap.
    intros [(c' & -> & Hc')|Hc].
    + apply IH in Hc' as [??]. split; [by apply sublist_skip|].
      simpl. by f_equal.
    + apply IH in Hc as [??]. split; [by apply sublist_cons|done].
Qed.

Lemma combinations_complete l c :
  c `sublist_of` l → c ∈ itertools.combinations l (length c).
Proof.
  induction 1 as [|x c l _ IH|x c l _ IH]; simpl.
  - apply list_elem_of_singleton. done.
  - apply elem_of_app. left. by apply list_elem_of_fmap_2.
  - destruct c as [|y c]; simpl.
    + apply list_elem_of_singleton. done.
    + apply elem_of_app. by right.
Qed.

End combinations.

(** ** Counting the numbers written in an expression *)

Section count_numbers.

Local Open Scope nat_scope.

Lemma count_numbers_app_space b s1 s2 :
  count_numbers b (s1 +:+ " " +:+ s2)
  = count_numbers b s1 + count_numbers false s2.
Proof.
  revert b. induction s1 as [|c s1 IH]; intros b.
  - reflexivity.
  - change (String c s1 +:+ " " +:+ s2) with (String c (s1 +:+ " " +:+ s2)).
    simpl count_numbers. rewrite IH. lia.
Qed.

Lemma count_numbers_app_paren b s :
  count_numbers b (s +:+ ")") = count_numbers b s.
Proof.
  revert b. induction s as [|c s IH]; intros b.
  - by destruct b.
  - change (String c s +:+ ")") with (String c (s +:+ ")")).
    simpl count_numbers. by rewrite IH.
Qed.

Lemma count_numbers_uint d :
  count_numbers true (NilEmpty.string_of_uint d) = 0
  ∧ (d ≠ Decimal.Nil → count_numbers false (NilEmpty.string_of_uint d) = 1).
Proof.
  induction d as [|d [IH _]|d [IH _]|d [IH _]|d [IH _]|d [IH _]
                  |d [IH _]|d [IH _]|d [IH _]|d [IH _]|d [IH _]];
    simpl;
    (split; [done|intros Hne; first [by destruct Hne|f_equal; exact IH]]).
Qed.

Lemma count_numbers_nilzero d :
  count_numbers false (NilZero.string_of_uint d) = 1.
Proof.
  destruct d; try done;
    apply (proj2 (count_numbers_uint _)); discriminate.
Qed.

(** A printed integer is one number. *)
Lemma count_numbers_str n : count_numbers false (str n) = 1.
Proof.
  unfold str. destruct n as [|p|p]; simpl.
  - done.
  - apply count_numbers_nilzero.
  - apply count_numbers_nilzero.
Qed.

Lemma count_numbers_operand c :
  count_numbers false (Calculation.operand c) = numbers_used c.
Proof.
  unfold Calculation.operand, numbers_used.
  destruct (Calculation.is_singleton c); [done|].
  change ("(" +:+ Calculation.expr c +:+ ")")
    with (String "(" (Calculation.expr c +:+ ")")).
  simpl count_numbers. apply count_numbers_app_paren.
Qed.

(** Combining two calculations adds up the numbers they use. *)
Lemma numbers_used_generate calca calcb c :
  c ∈ Calculation.generate calca calcb →
  numbers_used c = numbers_used calca + numbers_used calcb.
Proof.
  unfold Calculation.generate.
  destruct (Calculation.result calca <? Calculation.result calcb)%Z;
    intros ([r op] & -> & Hop)%list_elem_of_fmap;
    unfold numbers_used at 1; simpl;
    rewrite !count_numbers_app_space, !count_numbers_operand;
    apply elem_of_operations in Hop;
    destruct_or?; destruct_and?; subst op; simpl; lia.
Qed.

End count_numbers.


(** ** Building one group *)

Section group_init.

Lemma Forall_sublist_of {A} (P : A → Prop) (l1 l2 : list A) :
  l1 `sublist_of` l2 → Forall P l2 → Forall P l1.
Proof.
  intros Hsub%sublist_subseteq. rewrite !Forall_forall.
  intros HP x Hx. by apply HP, Hsub.
Qed.

Lemma get_Some_elem_of d key g : Group.get d key = Some g → (key, g) ∈ d.
Proof.
  induction d as [|[k g'] d IH]; simpl; [done|].
  case_decide as Hk.
  - intros [= ->]. subst k. constructor.
  - intros Hg. apply elem_of_cons. right. by apply IH.
Qed.

Lemma get_app d d' key :
  Group.get (d ++ d') key
  = match Group.get d key with
    | Some g => Some g
    | None => Group.get d' key
    end.
Proof.
  induction d as [|[k g'] d IH]; simpl; [by destruct (Group.get d' key)|].
  by case_decide.
Qed.

Lemma contains_spec d key : Group.contains d key ↔ is_Some (Group.get d key).
Proof. unfold Group.contains. apply bool_decide_spec. Qed.

Lemma elem_of_paired_loop numbers limit cnt combs p :
  p ∈ Group.paired_loop numbers limit cnt combs →
  p.1 ∈ combs ∧ p.2 = Group.filtering numbers p.1.
Proof.
  revert cnt. induction combs as [|numbers1 rest IH]; intros cnt; simpl.
  - by intros ?%elem_of_nil.
  - intros [->|Hp]%elem_of_cons.
    + split; [constructor|done].
    + case_decide; [by apply elem_of_nil in Hp|].
      apply IH in Hp as [??]. split; [by constructor|done].
Qed.

Lemma elem_of_paired_combinations numbers m limit p :
  p ∈ Group._paired_combinations numbers m limit →
  p.1 `sublist_of` numbers ∧ length p.1 = m
  ∧ p.2 = Group.filtering numbers p.1.
Proof.
  intros [Hc ?]%elem_of_paired_loop.
  apply combinations_sublist in Hc as [??]. done.
Qed.

Lemma zip_longest_nil_r {A B} (l : list A) :
  itertools.zip_longest l (@nil B) = (λ a, (Some a, None)) <$> l.
Proof. induction l; simpl; [done|]. by f_equal. Qed.

(** With a single limit and at least one size, [zip_longest] never
    fills in a size. *)
Lemma elem_of_zip_longest_singleton {A B} (l : list A) (b : B) x :
  l ≠ [] → x ∈ itertools.zip_longest l [b] → ∃ a, x.1 = Some a ∧ a ∈ l.
Proof.
  destruct l as [|a l]; [done|]. intros _. simpl.
  rewrite zip_longest_nil_r.
  intros [->|(a' & -> & Ha')%list_elem_of_fmap]%elem_of_cons.
  - exists a. split; [done|constructor].
  - exists a'. split; [done|by constructor].
Qed.

Context (all_numbers : list Z) (m : nat) (d : Group.dict) (numbers : list Z).
Hypothesis Hd : dict_ok all_numbers m d.
Hypothesis Hcomplete : dict_complete all_numbers (length numbers - 1) d.
Hypothesis Hsub : numbers `sublist_of` all_numbers.

Lemma partition_step_ok st p :
  (0 < length p.1 < length numbers)%nat →
  p.1 `sublist_of` numbers → p.2 = Group.filtering numbers p.1 →
  Forall (child_pair numbers d) st.2 →
  ∃ st', Group.partition_step d st p = Some st'
         ∧ Forall (child_pair numbers d) st'.2.
Proof.
  intros Hlen Hp1 Hp2 Hst.
  destruct st as [unique_numbers yielded], p as [numbers1 numbers2].
  simpl in *. subst numbers2. case_decide; [by eexists|].
  destruct (Hcomplete numbers1) as [group1 Hg1]; [by etrans|lia|].
  destruct (Hcomplete (Group.filtering numbers numbers1)) as [group2 Hg2].
  { etrans; [apply filtering_sublist|done]. }
  { pose proof (filtering_length numbers numbers1 Hp1). lia. }
  rewrite Hg1, Hg2. simpl. eexists. split; [done|]. simpl.
  apply Forall_app. split; [done|]. apply Forall_singleton.
  by exists numbers1.
Qed.

Lemma partition_with_ok halfbinom :
  (2 ≤ length numbers)%nat →
  ∃ partitions,
    Group.partition_with numbers (Z.of_nat (length numbers)) d halfbinom
    = Some partitions
    ∧ Forall (child_pair numbers d) partitions.
Proof.
  intros Hlen. unfold Group.partition_with.
  set (size := Z.of_nat (length numbers)).
  assert (range ((size + 1) / 2) size ≠ []) as Hne.
  { unfold range. rewrite seqZ_cons; [done|].
    pose proof (Z.div_lt_upper_bound (size + 1) 2 size). lia. }
  match goal with
  | |- ∃ _, snd <$> foldM ?f ?s ?l = _ ∧ _ =>
      destruct (foldM_invariant f
                  (λ st, Forall (child_pair numbers d) st.2) l s)
        as (st' & Hst' & HI)
  end.
  - constructor.
  - intros [m' limit] st Hx HI.
    apply elem_of_zip_longest_singleton in Hx as (size1 & Hm' & Hin); [|done].
    simpl in Hm'. subst m'. simpl.
    apply elem_of_seqZ in Hin.
    assert (1 ≤ (size + 1) / 2) by (apply Z.div_le_lower_bound; lia).
    apply foldM_invariant; [done|].
    intros p st1 (Hp1 & Hp2 & Hp3)%elem_of_paired_combinations HI1.
    apply partition_step_ok; [lia|done..].
  - exists st'.2. by rewrite Hst'.
Qed.

(** The constructor does not raise, and the group it builds satisfies
    [group_ok]. *)
Lemma init_ok :
  (0 < length numbers)%nat →
  ∃ g, Group.init numbers d = Some g
       ∧ Group.numbers g = numbers ∧ group_ok g.
Proof.
  intros Hlen. unfold Group.init, Group._partition_into_unique_pairs,
    Group._perform_calculations.
  destruct (decide (Z.of_nat (length numbers) = 1)) as [H1|H1].
  - destruct numbers as [|n [|??]]; simpl in *; try lia.
    eexists. split; [done|]. split; [done|].
    split_and!; simpl; [done|constructor|].
    apply Forall_singleton. split.
    + apply count_numbers_str.
    + intros Hn. rewrite Forall_singleton in Hn. exact Hn.
  - destruct (partition_with_ok
                (Group._halfbinom (Z.of_nat (length numbers))
                                  (Z.of_nat (length numbers) / 2)))
      as (partitions & -> & Hparts); [lia|].
    simpl. eexists. split; [done|]. split; [done|].
    destruct Hd as [Hentries _].
    assert (∀ p, p ∈ partitions →
              ∃ numbers1,
                numbers1 `sublist_of` numbers
                ∧ (0 < length numbers1 < length numbers)%nat
                ∧ Group.numbers p.1 = numbers1 ∧ group_ok p.1
                ∧ Group.numbers p.2 = Group.filtering numbers numbers1
                ∧ group_ok p.2) as Hchildren.
    { intros p Hp. rewrite Forall_forall in Hparts.
      destruct (Hparts p Hp) as (numbers1 & ? & ? & Hg1 & Hg2).
      exists numbers1. rewrite Forall_forall in Hentries.
      apply get_Some_elem_of, Hentries in Hg1 as (? & _ & _ & ?).
      apply get_Some_elem_of, Hentries in Hg2 as (? & _ & _ & ?).
      done. }
    split_and!; simpl; [done| |].
    + apply Forall_forall. intros p Hp.
      destruct (Hchildren p Hp)
        as (numbers1 & Hs1 & ? & Hn1 & (Hsz1 & _) & Hn2 & (Hsz2 & _)).
      rewrite Hsz1, Hsz2, Hn1, Hn2.
      pose proof (filtering_length numbers numbers1 Hs1). lia.
    + apply Forall_forall. intros c.
      intros ([group1 group2] & Hc & Hp)%list_elem_of_bind.
      apply list_elem_of_bind in Hc as ([calc1 calc2] & Hc & Hprod).
      unfold itertools.product in Hprod.
      apply list_elem_of_bind in Hprod as (calc1' & Hpair & Hc1).
      apply list_elem_of_fmap in Hpair as (calc2' & [= -> ->] & Hc2).
      destruct (Hchildren _ Hp)
        as (numbers1 & Hs1 & ? & Hn1 & (_ & _ & Hcalcs1)
            & Hn2 & (_ & _ & Hcalcs2)).
      simpl in *. rewrite Forall_forall in Hcalcs1, Hcalcs2.
      destruct (Hcalcs1 _ Hc1) as [Hu1 Hpos1].
      destruct (Hcalcs2 _ Hc2) as [Hu2 Hpos2].
      split.
      * rewrite (numbers_used_generate _ _ _ Hc), Hu1, Hu2, Hn1, Hn2.
        apply filtering_length, Hs1.
      * intros Hpos. eapply generate_positive; [| |exact Hc].
        -- apply Hpos1. rewrite Hn1. by eapply Forall_sublist_of.
        -- apply Hpos2. rewrite Hn2.
           eapply Forall_sublist_of; [apply filtering_sublist|done].
Qed.

End group_init.

(** ** Building the dictionary: [Solutions._unique_groups] *)

Section unique_groups.

Variable all_numbers : list Z.

Lemma dict_ok_mono m m' d :
  (m ≤ m')%nat → dict_ok all_numbers m d → dict_ok all_numbers m' d.
Proof.
  intros Hle [Hentries Hsorted]. split; [|done].
  eapply Forall_impl; [done|]. simpl. intros kv (? & ? & ? & ?).
  split_and!; try done; lia.
Qed.

(** The loop over the combinations of one length [m]. *)
Lemma unique_groups_inner_ok m d :
  (1 ≤ m)%nat →
  dict_ok all_numbers m d →
  dict_complete all_numbers (m - 1) d →
  ∃ d',
    foldM (λ all_groups numbers,
             if Group.contains all_groups numbers then Some all_groups
             else
               group ← Group.init numbers all_groups;
               Some (all_groups ++ [(numbers, group)]))
          d (itertools.combinations all_numbers m)
    = Some d'
    ∧ dict_ok all_numbers m d' ∧ dict_complete all_numbers m d'.
Proof.
  intros Hm Hd Hcomplete.
  match goal with
  | |- ∃ _, foldM ?f ?s ?l = _ ∧ _ =>
      destruct (foldM_invariant_prefix f
                  (λ visited d,
                     dict_ok all_numbers m d
                     ∧ dict_complete all_numbers (m - 1) d
                     ∧ ∀ c, c ∈ visited → is_Some (Group.get d c)) l s)
        as (d' & Hd' & Hok & Hcomp & Hvisited)
  end.
  - split_and!; [done..|]. by intros c ?%elem_of_nil.
  - intros visited numbers rest d1 Hsplit (Hok1 & Hcomp1 & Hvisited1).
    assert (numbers ∈ itertools.combinations all_numbers m) as Hnumbers.
    { rewrite Hsplit. apply elem_of_app. right. constructor. }
    apply combinations_sublist in Hnumbers as [Hsub Hlen].
    destruct (Group.contains d1 numbers) eqn:Hcontains.
    + exists d1. split; [done|]. split_and!; [done..|].
      intros c [Hc| ->%list_elem_of_singleton]%elem_of_app; [by apply Hvisited1|].
      apply contains_spec. by rewrite Hcontains.
    + assert (Group.get d1 numbers = None) as Hnone.
      { apply eq_None_not_Some. intros His%contains_spec.
        by rewrite Hcontains in His. }
      destruct (init_ok all_numbers m d1 numbers Hok1) as (g & -> & Hg & Hgok);
        [by rewrite Hlen|done|lia|].
      simpl. eexists. split; [done|]. split_and!.
      * destruct Hok1 as [Hentries Hsorted]. split.
        -- apply Forall_app. split; [done|]. apply Forall_singleton.
           split_and!; simpl; try done; lia.
        -- apply StronglySorted_app. split_and!; [|done|].
           ++ intros kv kv' Hkv ->%list_elem_of_singleton. simpl.
              rewrite Forall_forall in Hentries.
              destruct (Hentries kv Hkv) as (_ & _ & ? & _). lia.
           ++ repeat constructor.
      * intros c Hc Hclen. rewrite get_app.
        destruct (Hcomp1 c Hc Hclen) as [g' ->]. by eexists.
      * intros c [Hc| ->%list_elem_of_singleton]%elem_of_app.
        -- rewrite get_app. destruct (Hvisited1 c Hc) as [g' ->]. by eexists.
        -- rewrite get_app, Hnone. simpl. rewrite decide_True by done.
           by eexists.
  - exists d'. split_and!; [done..|].
    intros c Hc Hclen.
    destruct (decide (length c = m)) as [<-|Hne].
    + by apply Hvisited, combinations_complete.
    + apply Hcomp; [done|lia].
Qed.

(** The whole double loop: it never raises, and at the end the
    dictionary holds one well-formed group for every non-empty
    subsequence of the source numbers, shorter tuples first. *)
Lemma unique_groups_ok :
  ∃ d,
    Solutions._unique_groups all_numbers (Z.of_nat (length all_numbers))
    = Some d
    ∧ dict_ok all_numbers (length all_numbers) d
    ∧ dict_complete all_numbers (length all_numbers) d.
Proof.
  unfold Solutions._unique_groups.
  match goal with
  | |- ∃ _, foldM ?f ?s ?l = _ ∧ _ =>
      destruct (foldM_invariant_prefix f
                  (λ visited d,
                     dict_ok all_numbers (length visited) d
                     ∧ dict_complete all_numbers (length visited) d) l s)
        as (d' & Hd' & Hok & Hcomp)
  end.
  - split.
    + split; constructor.
    + intros c _ Hlen. simpl in Hlen. lia.
  - intros visited m rest d Hsplit [Hok Hcomp].
    assert (m = Z.of_nat (S (length visited))) as ->.
    { pose proof (list_lookup_middle visited rest m (length visited) eq_refl)
        as Hm.
      rewrite <-Hsplit in Hm. unfold range in Hm.
      apply lookup_seqZ in Hm. lia. }
    rewrite Nat2Z.id.
    destruct (unique_groups_inner_ok (S (length visited)) d)
      as (d' & Hfold & ? & ?).
    + lia.
    + eapply dict_ok_mono; [|done]. lia.
    + by replace (S (length visited) - 1)%nat with (length visited) by lia.
    + exists d'. split; [exact Hfold|]. rewrite length_app. simpl.
      by replace (length visited + 1)%nat with (S (length visited)) by lia.
  - exists d'. split; [done|].
    assert (length (range 1 (Z.of_nat (length all_numbers) + 1))
            = length all_numbers) as Hlen.
    { unfold range. rewrite length_seqZ. lia. }
    by rewrite Hlen in Hok, Hcomp.
Qed.

End unique_groups.

(** ** The scanning loop *)

Section scan.

Variable target : Z.

Lemma scan_snoc calcs c :
  scan target (calcs ++ [c]) = scan_step target (scan target calcs) c.
Proof. unfold scan. by rewrite fold_left_app. Qed.

(** The best results are picked from the calculations in their order. *)
Lemma scan_sublist calcs : (scan target calcs).2 `sublist_of` calcs.
Proof.
  induction calcs as [|c calcs IH] using rev_ind; [done|].
  rewrite scan_snoc. destruct (scan target calcs) as [sd best].
  unfold scan_step. simpl in *. repeat case_match; simpl.
  - apply sublist_inserts_l. done.
  - by apply sublist_app.
  - by apply sublist_inserts_r.
Qed.

Lemma scan_bounds calcs : 0 ≤ target → 0 ≤ (scan target calcs).1 ≤ target.
Proof.
  intros Htarget.
  induction calcs as [|c calcs IH] using rev_ind; [simpl; lia|].
  rewrite scan_snoc. destruct (scan target calcs) as [sd best].
  unfold scan_step. simpl in *.
  destruct (Z.leb_spec (Z.abs (Calculation.result c - target)) sd);
    [|simpl; lia].
  destruct (Z.ltb_spec (Z.abs (Calculation.result c - target)) sd);
    simpl; lia.
Qed.

(** When every calculation is further from the target than the initial
    value [target], nothing is ever recorded. *)
Lemma scan_nothing_closer calcs :
  (∀ c, c ∈ calcs → target < Z.abs (Calculation.result c - target)) →
  scan target calcs = (target, []).
Proof.
  induction calcs as [|c calcs IH] using rev_ind; intros Hfar; [done|].
  rewrite scan_snoc, IH.
  - unfold scan_step.
    destruct (Z.leb_spec (Z.abs (Calculation.result c - target)) target);
      [|done].
    assert (target < Z.abs (Calculation.result c - target)).
    { apply Hfar, elem_of_app. right. constructor. }
    lia.
  - intros c' Hc'. apply Hfar, elem_of_app. by left.
Qed.

End scan.

(** ** The whole engine *)

Section engine.

Lemma StronglySorted_sublist_of {A} (R : relation A) (l1 l2 : list A) :
  l1 `sublist_of` l2 → StronglySorted R l2 → StronglySorted R l1.
Proof.
  induction 1 as [|x l1 l2 Hsub IH|x l1 l2 Hsub IH].
  - done.
  - rewrite !StronglySorted_cons. intros [Hall Hsorted].
    split; [|by apply IH]. by eapply Forall_sublist_of.
  - rewrite StronglySorted_cons. intros [_ Hsorted]. by apply IH.
Qed.

Lemma sorted_reverse_Permutation numbers : sorted_reverse numbers ≡ₚ numbers.
Proof. apply merge_sort_Permutation. Qed.

(** The constructor of [Solutions] never raises. *)
Lemma Solutions_init_ok numbers :
  ∃ sol,
    Solutions.init numbers = Some sol
    ∧ dict_ok numbers (length numbers) (Solutions.all_groups sol)
    ∧ dict_complete numbers (length numbers) (Solutions.all_groups sol).
Proof.
  unfold Solutions.init.
  destruct (unique_groups_ok numbers) as (d & -> & Hok & Hcomp).
  simpl. by eexists.
Qed.

Lemma elem_of_walk sol c :
  c ∈ Solutions.walk sol ↔
    ∃ kv, kv ∈ Solutions.all_groups sol ∧ c ∈ Group.calculations kv.2.
Proof.
  unfold Solutions.walk. rewrite list_elem_of_bind.
  split; intros (kv & ? & ?); by exists kv.
Qed.

(** Every calculation uses the numbers of its group, all of them. *)
Lemma walk_numbers_used numbers m sol c :
  dict_ok numbers m (Solutions.all_groups sol) →
  c ∈ Solutions.walk sol →
  ∃ kv, kv ∈ Solutions.all_groups sol ∧ c ∈ Group.calculations kv.2
        ∧ numbers_used c = length kv.1
        ∧ Group.size kv.2 = Z.of_nat (length kv.1).
Proof.
  intros [Hentries _] (kv & Hkv & Hc)%elem_of_walk.
  exists kv. split_and!; [done..| |].
  - rewrite Forall_forall in Hentries.
    destruct (Hentries kv Hkv) as (Hkey & _ & _ & _ & _ & Hcalcs).
    rewrite Forall_forall in Hcalcs. rewrite <-Hkey. by apply Hcalcs.
  - rewrite Forall_forall in Hentries.
    destruct (Hentries kv Hkv) as (Hkey & _ & _ & Hsize & _).
    by rewrite <-Hkey.
Qed.

Lemma walk_positive numbers m sol c :
  Forall (λ n, 0 < n) numbers →
  dict_ok numbers m (Solutions.all_groups sol) →
  c ∈ Solutions.walk sol → 0 < Calculation.result c.
Proof.
  intros Hpos [Hentries _] (kv & Hkv & Hc)%elem_of_walk.
  rewrite Forall_forall in Hentries.
  destruct (Hentries kv Hkv) as (Hkey & Hsub & _ & _ & _ & Hcalcs).
  rewrite Forall_forall in Hcalcs. apply (Hcalcs c Hc).
  rewrite Hkey. by eapply Forall_sublist_of.
Qed.

(** [walk] yields the calculations by increasing number of numbers used. *)
Lemma walk_sorted numbers m sol :
  dict_ok numbers m (Solutions.all_groups sol) →
  StronglySorted (λ c c', (numbers_used c ≤ numbers_used c')%nat)
                 (Solutions.walk sol).
Proof.
  unfold Solutions.walk. destruct sol as [? ? d]. simpl.
  intros [Hentries Hsorted].
  induction d as [|kv d IH]; [constructor|].
  apply Forall_cons in Hentries as [(Hkey & _ & _ & _ & _ & Hcalcs) Hentries].
  apply StronglySorted_cons in Hsorted as [Hfirst Hsorted].
  simpl. apply StronglySorted_app. rewrite Forall_forall in Hcalcs.
  split_and!.
  - intros c c' Hc (kv' & Hc' & Hkv')%list_elem_of_bind.
    rewrite Forall_forall in Hfirst, Hentries.
    destruct (Hentries kv' Hkv') as (Hkey' & _ & _ & _ & _ & Hcalcs').
    rewrite Forall_forall in Hcalcs'.
    rewrite (proj1 (Hcalcs c Hc)), (proj1 (Hcalcs' c' Hc')), Hkey, Hkey'.
    by apply Hfirst.
  - revert Hcalcs. generalize (Group.calculations kv.2). intros calcs Hcalcs.
    induction calcs as [|c calcs IHc]; [constructor|].
    apply StronglySorted_cons. split.
    + apply Forall_forall. intros c' Hc'.
      rewrite (proj1 (Hcalcs c ltac:(constructor))).
      rewrite (proj1 (Hcalcs c' ltac:(by constructor))). done.
    + apply IHc. intros c' Hc'. apply Hcalcs. by constructor.
  - by apply IH.
Qed.

End engine.

(** ** The memo table cannot be observed *)

Section cached_engine.

Lemma agrees_ret {A} (x : A) : agrees (mret x) (Some x).
Proof. intros cache Hc. by exists cache. Qed.

Lemma agrees_lift {A} (x : option A) : agrees (lift x) x.
Proof. intros cache Hc. by exists cache. Qed.

Lemma agrees_bind {A B} (c : cached A) (x : option A)
    (k : A → cached B) (h : A → option B) :
  agrees c x → (∀ a, agrees (k a) (h a)) → agrees (c ≫= k) (x ≫= h).
Proof.
  intros Hc Hk cache Hcache. unfold mbind at 1, cached_bind.
  destruct (Hc cache Hcache) as (cache1 & -> & Hcache1).
  destruct x as [a|]; simpl.
  - by apply Hk.
  - by exists cache1.
Qed.

Lemma agrees_foldM {A S} (fc : S → A → cached S) (f : S → A → option S) l s :
  (∀ s x, agrees (fc s x) (f s x)) →
  agrees (foldM_cached fc s l) (foldM f s l).
Proof.
  intros Hstep. revert s. induction l as [|x l IH]; intros s; simpl.
  - apply agrees_ret.
  - apply agrees_bind; [apply Hstep|apply IH].
Qed.

Lemma agrees_partition numbers size all_groups :
  agrees (Group._partition_into_unique_pairs_cached numbers size all_groups)
         (Group._partition_into_unique_pairs numbers size all_groups).
Proof.
  destruct (decide (size = 1)) as [->|Hsize].
  - apply agrees_ret.
  - intros cache Hc.
    destruct (partition_cached numbers size all_groups cache Hc Hsize)
      as (cache' & -> & Hc').
    by eexists.
Qed.

Lemma agrees_init numbers all_groups :
  agrees (Group.init_cached numbers all_groups)
         (Group.init numbers all_groups).
Proof.
  unfold Group.init_cached, Group.init.
  apply agrees_bind; [apply agrees_partition|]. intros partitions.
  apply agrees_bind; [apply agrees_lift|]. intros calculations.
  apply agrees_ret.
Qed.

Lemma agrees_unique_groups all_numbers size :
  agrees (Solutions._unique_groups_cached all_numbers size)
         (Solutions._unique_groups all_numbers size).
Proof.
  unfold Solutions._unique_groups_cached, Solutions._unique_groups.
  apply agrees_foldM. intros all_groups m.
  apply agrees_foldM. intros all_groups' numbers.
  destruct (Group.contains all_groups' numbers); [apply agrees_ret|].
  apply agrees_bind; [apply agrees_init|]. intros group. apply agrees_ret.
Qed.

Lemma agrees_countdown_solver target unsorted_numbers :
  agrees (countdown_solver_cached target unsorted_numbers)
         (countdown_solver target unsorted_numbers).
Proof.
  unfold countdown_solver_cached, countdown_solver.
  apply agrees_bind; [|intros solutions; apply agrees_ret].
  unfold Solutions.init_cached, Solutions.init.
  apply agrees_bind; [apply agrees_unique_groups|].
  intros all_groups. apply agrees_ret.
Qed.

End cached_engine.

Lemma countdown_solver_total target unsorted_numbers :
  ∃ sol,
    Solutions.init (sorted_reverse unsorted_numbers) = Some sol
    ∧ countdown_solver target unsorted_numbers
      = Some (scan target (Solutions.walk sol))
    ∧ dict_ok (sorted_reverse unsorted_numbers)
              (length (sorted_reverse unsorted_numbers))
              (Solutions.all_groups sol).
Proof.
  destruct (Solutions_init_ok (sorted_reverse unsorted_numbers))
    as (sol & Hsol & Hok & _).
  exists sol. unfold countdown_solver. by rewrite Hsol.
Qed.

Lemma StronglySorted_lookup_lt {A} (R : relation A) (l : list A) i j x y :
  StronglySorted R l → l !! i = Some x → l !! j = Some y → (i < j)%nat →
  R x y.
Proof.
  intros Hsorted. revert i j.
  induction Hsorted as [|a l Hsorted IH Hall]; intros i j; [done|].
  destruct i as [|i], j as [|j]; simpl; try lia.
  - intros [= <-] Hy _. by eapply Forall_lookup_1 in Hall.
  - intros Hx Hy Hlt. apply (IH i j); [done..|lia].
Qed.

(** The sizes of the two halves of every stored partition add up to the
    size of the group. *)
Lemma partition_sizes_sum (numbers : list Z) :
  ∃ sol,
    Solutions.init numbers = Some sol
    ∧ ∀ kv p,
        kv ∈ Solutions.all_groups sol → p ∈ Group.partitions kv.2 →
        Group.size p.1 + Group.size p.2 = Group.size kv.2.
Proof.
  destruct (Solutions_init_ok numbers) as (sol & Hsol & [Hentries _] & _).
  exists sol. split; [done|]. intros kv p Hkv Hp.
  rewrite Forall_forall in Hentries.
  destruct (Hentries kv Hkv) as (_ & _ & _ & _ & Hparts & _).
  rewrite Forall_forall in Hparts. by apply Hparts.
Qed.

(** A negative target is reported unchanged, with no result. *)
Lemma scan_negative_target target calcs :
  target < 0 → scan target calcs = (target, []).
Proof. intros Hneg. apply scan_nothing_closer. intros c _. lia. Qed.

(** * The claims *)

(** C1. For every target and every sequence of positive integers the
    engine runs to completion, and every calculation it emits, the
    singletons of the size-1 groups and the combined calculations of
    the larger groups alike, has a positive integer as its result; so do
    the results that are reported. *)
Theorem calculations_positive (target : Z) (numbers : list Z) :
  Forall (λ n, 0 < n) numbers →
  ∃ sol,
    Solutions.init (sorted_reverse numbers) = Some sol
    ∧ countdown_solver target numbers
      = Some (scan target (Solutions.walk sol))
    ∧ (∀ c, c ∈ Solutions.walk sol → 0 < Calculation.result c)
    ∧ (∀ c, c ∈ (scan target (Solutions.walk sol)).2 →
            0 < Calculation.result c).
Proof.
  intros Hpos.
  destruct (countdown_solver_total target numbers) as (sol & Hsol & Hrun & Hok).
  exists sol. split_and!; [done..| |].
  - intros c Hc. eapply walk_positive; [|done..].
    by rewrite sorted_reverse_Permutation.
  - intros c Hc%(sublist_subseteq _ _ (scan_sublist target _)).
    eapply walk_positive; [|done..].
    by rewrite sorted_reverse_Permutation.
Qed.

Lemma calculations_positive_witness :
  ∃ sol,
    Solutions.init (sorted_reverse [3; 7; 5]) = Some sol
    ∧ countdown_solver 15 [3; 7; 5] = Some (scan 15 (Solutions.walk sol))
    ∧ (∀ c, c ∈ Solutions.walk sol → 0 < Calculation.result c)
    ∧ (∀ c, c ∈ (scan 15 (Solutions.walk sol)).2 → 0 < Calculation.result c).
Proof.
  apply (calculations_positive 15 [3; 7; 5]).
  repeat constructor.
Defined.

(** C5. The engine always produces a result list, and in it a result
    whose expression uses fewer source numbers stands before every
    result whose expression uses more; the number of numbers an
    expression uses is the size of the group that emitted it. *)
Theorem fewer_numbers_first (target : Z) (numbers : list Z) :
  ∃ sol,
    Solutions.init (sorted_reverse numbers) = Some sol
    ∧ countdown_solver target numbers
      = Some (scan target (Solutions.walk sol))
    ∧ (∀ c, c ∈ (scan target (Solutions.walk sol)).2 →
            ∃ kv, kv ∈ Solutions.all_groups sol
                  ∧ c ∈ Group.calculations kv.2
                  ∧ Z.of_nat (numbers_used c) = Group.size kv.2)
    ∧ (∀ i j ci cj,
         (scan target (Solutions.walk sol)).2 !! i = Some ci →
         (scan target (Solutions.walk sol)).2 !! j = Some cj →
         (numbers_used ci < numbers_used cj)%nat →
         (i < j)%nat).
Proof.
  destruct (countdown_solver_total target numbers) as (sol & Hsol & Hrun & Hok).
  exists sol. split_and!; [done..| |].
  - intros c Hc%(sublist_subseteq _ _ (scan_sublist target _)).
    destruct (walk_numbers_used _ _ _ _ Hok Hc) as (kv & ? & ? & Hused & Hsize).
    exists kv. split_and!; [done..|]. by rewrite Hused, Hsize.
  - intros i j ci cj Hi Hj Hlt.
    pose proof (StronglySorted_sublist_of _ _ _
                  (scan_sublist target (Solutions.walk sol))
                  (walk_sorted _ _ _ Hok)) as Hsorted.
    destruct (decide (i < j)%nat) as [|Hge]; [done|].
    destruct (decide (i = j)) as [->|Hne].
    + rewrite Hi in Hj. injection Hj as ->. lia.
    + pose proof (StronglySorted_lookup_lt _ _ j i cj ci Hsorted Hj Hi
                    ltac:(lia)) as Hle.
      simpl in Hle. lia.
Qed.

(** C3 (amended). For target 15 and source numbers (7,5,3) the minimal
    difference is 0 and the results are, in this order, "5 x 3" from the
    size-2 group (5,3), then the three size-3 sums "(7 + 5) + 3",
    "(7 + 3) + 5" and "(5 + 3) + 7": inside each sum the operand with
    the larger result is written first. *)
Theorem scenario_a :
  countdown_solver 15 [7; 5; 3]
  = Some (0, [Calculation.mk "5 x 3" 15 false;
              Calculation.mk "(7 + 5) + 3" 15 false;
              Calculation.mk "(7 + 3) + 5" 15 false;
              Calculation.mk "(5 + 3) + 7" 15 false])
  ∧ (λ out : Z * list Calculation.t, numbers_used <$> out.2) <$> countdown_solver 15 [7; 5; 3]
    = Some [2; 3; 3; 3]%nat.
Proof. split; vm_compute; reflexivity. Qed.

(** The expression "(5 + 7) + 3" that the scenario expects is not among
    the results, nor is "(3 + 7) + 5". *)
Lemma scenario_a_operand_order :
  ∃ out,
    countdown_solver 15 [7; 5; 3] = Some out
    ∧ ("(5 + 7) + 3"%string ∉ Calculation.expr <$> out.2)
    ∧ ("(3 + 7) + 5"%string ∉ Calculation.expr <$> out.2).
Proof.
  eexists. split; [vm_compute; reflexivity|].
  split; apply (bool_decide_unpack _); vm_compute; exact I.
Qed.

(** For a target that is not negative, the scanning loop starts from
    the target itself, which is then its absolute value, and the minimal
    difference that is reported lies between 0 and the target. *)
Theorem minimal_difference_nonnegative (target : Z) (numbers : list Z) :
  0 ≤ target →
  scan target [] = (Z.abs target, [])
  ∧ (∀ calcs, 0 ≤ (scan target calcs).1 ≤ target)
  ∧ ∃ out, countdown_solver target numbers = Some out ∧ 0 ≤ out.1 ≤ target.
Proof.
  intros Htarget. split_and!.
  - unfold scan. simpl. by rewrite Z.abs_eq.
  - intros calcs. by apply scan_bounds.
  - destruct (countdown_solver_total target numbers) as (sol & _ & -> & _).
    eexists. split; [done|]. by apply scan_bounds.
Qed.

Lemma minimal_difference_nonnegative_witness :
  scan 15 [] = (Z.abs 15, [])
  ∧ (∀ calcs, 0 ≤ (scan 15 calcs).1 ≤ 15)
  ∧ ∃ out, countdown_solver 15 [7; 5; 3] = Some out ∧ 0 ≤ out.1 ≤ 15.
Proof.
  apply (minimal_difference_nonnegative 15 [7; 5; 3]). lia.
Defined.

(** C4, at the target -5 with the source number 1. The loop starts from
    the target as given, -5, and not from its absolute value 5, although
    every other difference is taken with [abs]; no calculation can then
    be as close as that, and -5 is reported as the minimal difference,
    with no result. *)
Theorem minimal_difference_negative_target :
  (scan (-5) []).1 ≠ Z.abs (-5)
  ∧ countdown_solver (-5) [1] = Some (-5, [])
  ∧ ¬ (∀ target calcs,
         (scan target []).1 = Z.abs target ∧ 0 ≤ (scan target calcs).1).
Proof.
  split_and!; [done|by vm_compute|].
  intros Hclaim. destruct (Hclaim (-5) []) as [Habs _]. done.
Qed.

(** C6, at the group (3,3,2,1). The stored partitions hold the two
    groups (3,2) and (3,1) in both orders, and the results for target 9
    list the same expression twice because of it. *)
Theorem partitions_both_orders :
  ∃ sol g,
    Solutions.init (sorted_reverse [3; 3; 2; 1]) = Some sol
    ∧ Group.get (Solutions.all_groups sol) [3; 3; 2; 1] = Some g
    ∧ (λ p : Group.t * Group.t, (Group.numbers p.1, Group.numbers p.2))
        <$> Group.partitions g
      = [([3; 3], [2; 1]); ([3; 2], [3; 1]); ([3; 1], [3; 2]);
         ([3; 3; 2], [1]); ([3; 3; 1], [2]); ([3; 2; 1], [3])]
    ∧ (λ out : Z * list Calculation.t,
         filter (λ s, s = "9 = (3 + 2) + (3 + 1)"%string)
                     (output_lines out.2))
        <$> countdown_solver 9 [3; 3; 2; 1]
      = Some ["9 = (3 + 2) + (3 + 1)"%string; "9 = (3 + 2) + (3 + 1)"%string].
Proof.
  destruct (Solutions.init (sorted_reverse [3; 3; 2; 1])) as [sol|] eqn:Hsol;
    [|by vm_compute in Hsol].
  destruct (Group.get (Solutions.all_groups sol) [3; 3; 2; 1]) as [g|] eqn:Hg.
  - exists sol, g. split_and!; [done..| |by vm_compute].
    revert Hg. vm_compute in Hsol. injection Hsol as <-.
    vm_compute. by intros [= <-].
  - revert Hg. vm_compute in Hsol. injection Hsol as <-. by vm_compute.
Qed.

(** C9. The output is a function of the target and the numbers alone:
    whatever the memo table of [_halfbinom] holds when a run starts, as
    long as earlier calls put it there, the run does not raise and
    hands the same minimal difference and the same result list to
    [output]; in particular a second run in the same process repeats the
    output of the first. *)
Theorem deterministic_output (target : Z) (numbers : list Z) :
  ∃ out,
    countdown_solver target numbers = Some out
    ∧ (∀ cache,
         lru_cache.consistent Group._halfbinom cache →
         ∃ cache',
           countdown_solver_cached target numbers cache = (Some out, cache')
           ∧ lru_cache.consistent Group._halfbinom cache')
    ∧ (countdown_solver_cached target numbers
         (countdown_solver_cached target numbers []).2).1
      = (countdown_solver_cached target numbers []).1.
Proof.
  destruct (countdown_solver_total target numbers) as (sol & _ & Hrun & _).
  eexists. split; [exact Hrun|].
  pose proof (agrees_countdown_solver target numbers) as Hagrees.
  rewrite Hrun in Hagrees. split; [exact Hagrees|].
  destruct (Hagrees [] ltac:(constructor)) as (cache1 & -> & Hc1).
  simpl. by destruct (Hagrees cache1 Hc1) as (cache2 & -> & _).
Qed.

(** C10. Whenever every calculation is further from the target than the
    initial value of the running minimum, which is the target as given,
    the result list is empty and that initial value is reported as the
    minimal difference; target 0 with positive source numbers is such
    a case. *)
Theorem results_can_be_empty (target : Z) (numbers : list Z) :
  (∀ sol,
     Solutions.init (sorted_reverse numbers) = Some sol →
     (∀ c, c ∈ Solutions.walk sol →
           target < Z.abs (Calculation.result c - target)) →
     countdown_solver target numbers = Some (target, []))
  ∧ (Forall (λ n, 0 < n) numbers →
     countdown_solver 0 numbers = Some (0, [])).
Proof.
  split.
  - intros sol Hsol Hfar. unfold countdown_solver. rewrite Hsol. simpl.
    by rewrite scan_nothing_closer.
  - intros Hpos.
    destruct (countdown_solver_total 0 numbers) as (sol & _ & -> & Hok).
    rewrite scan_nothing_closer; [done|].
    intros c Hc.
    assert (0 < Calculation.result c); [|lia].
    eapply walk_positive; [|done..].
    by rewrite sorted_reverse_Permutation.
Qed.

Lemma results_can_be_empty_witness :
  countdown_solver 0 [1; 2] = Some (0, []).
Proof.
  apply (results_can_be_empty 0 [1; 2]). repeat constructor.
Defined.


(** * Further properties of the code *)

(** ** The scanning loop of [countdown_solver] *)

Lemma filter_none {A} (P : A → Prop) `{!∀ x, Decision (P x)} (l : list A) :
  (∀ x, x ∈ l → ¬ P x) → filter P l = [].
Proof.
  induction l as [|x l IH]; intros Hnone; [done|].
  rewrite filter_cons_False by (apply Hnone; constructor).
  apply IH. intros y Hy. apply Hnone. by constructor.
Qed.

Section scan_characterisation.

Variable target : Z.

Lemma scan_fst_le_target calcs : (scan target calcs).1 ≤ target.
Proof.
  induction calcs as [|c calcs IH] using rev_ind; [simpl; lia|].
  rewrite scan_snoc. destruct (scan target calcs) as [sd best].
  unfold scan_step. simpl in *.
  destruct (Z.leb_spec (Z.abs (Calculation.result c - target)) sd);
    [|simpl; lia].
  destruct (Z.ltb_spec (Z.abs (Calculation.result c - target)) sd);
    simpl; lia.
Qed.

Lemma scan_fst_lower_bound calcs c :
  c ∈ calcs → (scan target calcs).1 ≤ diff target c.
Proof.
  unfold diff.
  induction calcs as [|c' calcs IH] using rev_ind; [by intros ?%elem_of_nil|].
  rewrite scan_snoc. destruct (scan target calcs) as [sd best].
  unfold scan_step. simpl in *.
  intros [Hc|Hc]%elem_of_app.
  - specialize (IH Hc).
    destruct (Z.leb_spec (Z.abs (Calculation.result c' - target)) sd);
      [|simpl; lia].
    destruct (Z.ltb_spec (Z.abs (Calculation.result c' - target)) sd);
      simpl; lia.
  - apply list_elem_of_singleton in Hc. subst c'.
    destruct (Z.leb_spec (Z.abs (Calculation.result c - target)) sd);
      [|simpl; lia].
    destruct (Z.ltb_spec (Z.abs (Calculation.result c - target)) sd);
      simpl; lia.
Qed.

Lemma scan_snd_filter calcs :
  (scan target calcs).2
  = filter (λ c, diff target c = (scan target calcs).1) calcs.
Proof.
  unfold diff.
  induction calcs as [|c calcs IH] using rev_ind; [done|].
  pose proof (scan_fst_lower_bound calcs) as Hlow. unfold diff in Hlow.
  rewrite scan_snoc, filter_app.
  destruct (scan target calcs) as [sd best]. unfold scan_step. simpl in *.
  destruct (Z.leb_spec (Z.abs (Calculation.result c - target)) sd) as [Hle|Hgt].
  - destruct (Z.ltb_spec (Z.abs (Calculation.result c - target)) sd)
      as [Hlt|Hge]; simpl.
    + rewrite filter_cons_True by done. rewrite filter_nil.
      replace (filter _ calcs) with (@nil Calculation.t); [done|].
      symmetry. apply filter_none.
      intros c' Hc'. specialize (Hlow c' Hc'). lia.
    + assert (Z.abs (Calculation.result c - target) = sd) as Heq by lia.
      rewrite filter_cons_True by done. rewrite filter_nil.
      by rewrite IH.
  - simpl. rewrite filter_cons_False by lia. rewrite filter_nil, app_nil_r.
    done.
Qed.

Lemma scan_fst_attained calcs :
  (scan target calcs).1 = target
  ∨ ∃ c, c ∈ calcs ∧ diff target c = (scan target calcs).1.
Proof.
  unfold diff.
  induction calcs as [|c calcs IH] using rev_ind; [by left|].
  rewrite scan_snoc. destruct (scan target calcs) as [sd best].
  unfold scan_step. simpl in *.
  destruct (Z.leb_spec (Z.abs (Calculation.result c - target)) sd) as [Hle|Hgt].
  - right. exists c. split; [apply elem_of_app; right; constructor|].
    destruct (Z.ltb_spec (Z.abs (Calculation.result c - target)) sd);
      simpl; lia.
  - simpl. destruct IH as [?|(c' & ? & ?)]; [by left|].
    right. exists c'. split; [|done]. apply elem_of_app. by left.
Qed.

End scan_characterisation.

(** X1. Whatever the target, the reported difference is the smallest of
    the target and the distances of all calculations, and the reported
    results are exactly the calculations at that distance, in the order
    in which they were generated. *)
Theorem scan_reports_all_closest (target : Z) (calcs : list Calculation.t) :
  (scan target calcs).2
  = filter (λ c, diff target c = (scan target calcs).1) calcs
  ∧ (scan target calcs).1 ≤ target
  ∧ (∀ c, c ∈ calcs → (scan target calcs).1 ≤ diff target c)
  ∧ ((scan target calcs).1 = target
     ∨ ∃ c, c ∈ calcs ∧ diff target c = (scan target calcs).1).
Proof.
  split_and!.
  - apply scan_snd_filter.
  - apply scan_fst_le_target.
  - apply scan_fst_lower_bound.
  - apply scan_fst_attained.
Qed.

(** X2. The result list is empty exactly when every calculation is
    further from the target than the target's own value. *)
Theorem scan_empty_iff (target : Z) (calcs : list Calculation.t) :
  (scan target calcs).2 = [] ↔ ∀ c, c ∈ calcs → target < diff target c.
Proof.
  split.
  - intros Hempty c Hc.
    pose proof (scan_fst_lower_bound target calcs c Hc) as Hlow.
    pose proof (scan_fst_le_target target calcs) as Hle.
    rewrite scan_snd_filter in Hempty.
    destruct (scan_fst_attained target calcs) as [Heq|(c' & Hc' & Heq)].
    + destruct (decide (diff target c = target)) as [Hdc|]; [|lia].
      assert (c ∈ filter (λ c, diff target c = (scan target calcs).1) calcs)
        as Hin by (apply list_elem_of_filter; split; [lia|done]).
      rewrite Hempty in Hin. by apply elem_of_nil in Hin.
    + assert (c' ∈ filter (λ c, diff target c = (scan target calcs).1) calcs)
        as Hin by (by apply list_elem_of_filter).
      rewrite Hempty in Hin. by apply elem_of_nil in Hin.
  - intros Hfar. by rewrite scan_nothing_closer.
Qed.

(** ** [Calculation.generate] *)

(** X3. The order in which two calculations are handed to [generate]
    does not matter when their results differ: the larger one is made
    the left operand either way. *)
Theorem generate_symmetric (calca calcb : Calculation.t) :
  Calculation.result calca ≠ Calculation.result calcb →
  Calculation.generate calca calcb = Calculation.generate calcb calca.
Proof.
  intros Hne. unfold Calculation.generate.
  destruct (Z.ltb_spec (Calculation.result calca) (Calculation.result calcb)),
    (Z.ltb_spec (Calculation.result calcb) (Calculation.result calca));
    try done; lia.
Qed.

Lemma generate_symmetric_witness :
  Calculation.generate (Calculation.singleton 3) (Calculation.singleton 5)
  = Calculation.generate (Calculation.singleton 5) (Calculation.singleton 3).
Proof.
  apply (generate_symmetric (Calculation.singleton 3) (Calculation.singleton 5)).
  simpl. lia.
Defined.

(** ** [Group._halfbinom] on all its arguments *)

(** X4. The helper returns [None] exactly for an odd [n]; for an even
    [n ≥ 0] and any [k ≥ 0] it returns the binomial coefficient
    [C(n, k)] halved (rounded down), and for a negative [k] it returns
    0, the loop being empty. *)
Theorem halfbinom_spec (n k : Z) :
  (Group._halfbinom n k = None ↔ n mod 2 = 1)
  ∧ (0 ≤ n → 0 ≤ k → n mod 2 = 0 →
     Group._halfbinom n k
     = Some (Z.of_nat (binomial (Z.to_nat n) (Z.to_nat k)) / 2))
  ∧ (n mod 2 ≠ 1 → k < 0 → Group._halfbinom n k = Some 0).
Proof.
  split_and!.
  - unfold Group._halfbinom. by case_decide.
  - intros Hn Hk Heven. unfold Group._halfbinom.
    rewrite decide_False by lia.
    pose proof (halfbinom_loop (Z.to_nat n) (Z.to_nat k)) as Hloop.
    rewrite !Z2Nat.id in Hloop by done. by rewrite Hloop.
  - intros Hodd Hk. unfold Group._halfbinom.
    rewrite decide_False by done.
    unfold range at 2. rewrite seqZ_nil by lia.
    by destruct (reverse _).
Qed.

Lemma halfbinom_spec_witness :
  Group._halfbinom 6 2
  = Some (Z.of_nat (binomial (Z.to_nat 6) (Z.to_nat 2)) / 2).
Proof. apply (halfbinom_spec 6 2); [lia|lia|reflexivity]. Defined.

(** ** [Group.filtering] on arbitrary arguments *)

Lemma filtering_length_ge iterable elements :
  (length iterable ≤ length (Group.filtering iterable elements)
                     + length elements)%nat.
Proof.
  revert elements. induction iterable as [|n rest IH]; intros elements.
  - simpl. lia.
  - destruct elements as [|k elems].
    + rewrite filtering_nil_r. simpl. lia.
    + rewrite filtering_cons. case_decide; simpl.
      * specialize (IH elems). lia.
      * specialize (IH (k :: elems)). simpl in IH. lia.
Qed.

Lemma filtering_self iterable : Group.filtering iterable iterable = [].
Proof.
  induction iterable as [|n rest IH]; [done|].
  rewrite filtering_cons. by rewrite decide_True.
Qed.

(** X5. Whatever [elements] is, [filtering] returns a subsequence of the
    iterable and drops at most one item per element; it returns the
    iterable unchanged for no elements and nothing when the elements are
    the iterable itself. *)
Theorem filtering_general (iterable elements : list Z) :
  Group.filtering iterable elements `sublist_of` iterable
  ∧ (length iterable ≤ length (Group.filtering iterable elements)
                       + length elements)%nat
  ∧ Group.filtering iterable [] = iterable
  ∧ Group.filtering iterable iterable = [].
Proof.
  split_and!.
  - apply filtering_sublist.
  - apply filtering_length_ge.
  - apply filtering_nil_r.
  - apply filtering_self.
Qed.

(** ** [Group._paired_combinations] *)

Lemma paired_loop_take numbers limit cnt combs :
  Group.paired_loop numbers limit cnt combs
  = (λ numbers1, (numbers1, Group.filtering numbers numbers1))
      <$> match limit with
          | Some l => if decide (cnt ≤ l)
                      then take (Z.to_nat (l - cnt + 1)) combs
                      else combs
          | None => combs
          end.
Proof.
  revert cnt. induction combs as [|numbers1 rest IH]; intros cnt.
  - simpl. destruct limit as [l|]; [|done].
    case_decide; [|done]. by rewrite take_nil.
  - simpl. rewrite IH. destruct limit as [l|].
    + destruct (decide (Some cnt = Some l)) as [[= ->]|Hne].
      * rewrite decide_True by lia.
        replace (Z.to_nat (l - l + 1)) with 1%nat by lia.
        simpl. by destruct rest.
      * assert (cnt ≠ l) by congruence.
        destruct (decide (cnt ≤ l)).
        -- rewrite decide_True by lia.
           replace (Z.to_nat (l - cnt + 1))
             with (S (Z.to_nat (l - (cnt + 1) + 1))) by lia.
           done.
        -- rewrite decide_False by lia. done.
    + rewrite decide_False by done. done.
Qed.

(** X6. [_paired_combinations] pairs each combination with what
    [filtering] leaves of the numbers; with a limit of at least 1 it
    stops after that many combinations, and with no limit, or a limit
    below 1, it goes through all of them. *)
Theorem paired_combinations_take (numbers : list Z) (m : nat)
    (limit : option Z) :
  Group._paired_combinations numbers m limit
  = (λ numbers1, (numbers1, Group.filtering numbers numbers1))
      <$> match limit with
          | Some l => if decide (1 ≤ l)
                      then take (Z.to_nat l) (itertools.combinations numbers m)
                      else itertools.combinations numbers m
          | None => itertools.combinations numbers m
          end.
Proof.
  unfold Group._paired_combinations. rewrite paired_loop_take.
  destruct limit as [l|]; [|done].
  case_decide; [|done]. by replace (l - 1 + 1) with l by lia.
Qed.

(** ** The dictionary built by [Solutions._unique_groups] *)

Section foldM_partial.

Context {A S : Type} (f : S → A → option S).

(** What every successful iteration preserves holds when the loop ends
    without raising. *)
Lemma foldM_Some_invariant (I : S → Prop) (l : list A) (s s' : S) :
  foldM f s l = Some s' →
  I s →
  (∀ x s s', x ∈ l → f s x = Some s' → I s → I s') →
  I s'.
Proof.
  revert s. induction l as [|x l IH]; intros s; simpl.
  - by intros [= <-].
  - destruct (f s x) as [s1|] eqn:Hs1; [|done]. simpl.
    intros Hfold HI Hstep. apply (IH s1 Hfold).
    + eapply Hstep; [constructor|done..].
    + intros y t t' Hy. apply Hstep. by constructor.
Qed.

End foldM_partial.

Section dictionary.

Lemma get_None d key : Group.get d key = None ↔ key ∉ d.*1.
Proof.
  induction d as [|[k g] d IH]; simpl.
  - split; [intros _ ?%elem_of_nil|]; done.
  - rewrite not_elem_of_cons. case_decide as Hk.
    + split; [done|]. by intros [? _].
    + rewrite IH. split; [by intros ?|by intros [_ ?]].
Qed.

Lemma get_NoDup d key g :
  NoDup d.*1 → (key, g) ∈ d → Group.get d key = Some g.
Proof.
  induction d as [|[k g'] d IH]; simpl.
  - by intros _ ?%elem_of_nil.
  - intros [Hk Hnodup]%NoDup_cons [[= -> ->]|Hin]%elem_of_cons.
    + by rewrite decide_True.
    + rewrite decide_False; [by apply IH|].
      intros ->. apply Hk. by apply (list_elem_of_fmap_2 fst) in Hin.
Qed.

(** One iteration of the inner loop of [_unique_groups] either leaves
    the dictionary alone or appends the new group under a fresh key. *)
Lemma unique_groups_step d numbers d' :
  (if Group.contains d numbers then Some d
   else group ← Group.init numbers d; Some (d ++ [(numbers, group)])) = Some d' →
  d' = d
  ∨ ∃ group, Group.init numbers d = Some group
             ∧ (numbers ∉ d.*1) ∧ d' = d ++ [(numbers, group)].
Proof.
  destruct (Group.contains d numbers) eqn:Hcontains.
  - intros [= <-]. by left.
  - destruct (Group.init numbers d) as [group|]; [|done].
    intros [= <-]. right. exists group. split_and!; [done| |done].
    apply get_None, eq_None_not_Some. intros His%contains_spec.
    by rewrite Hcontains in His.
Qed.

Lemma unique_groups_invariant (I : Group.dict → Prop) all_numbers size d :
  Solutions._unique_groups all_numbers size = Some d →
  I [] →
  (∀ d numbers group,
     Group.init numbers d = Some group → numbers ∉ d.*1 →
     I d → I (d ++ [(numbers, group)])) →
  I d.
Proof.
  intros Hrun Hinit Hstep. unfold Solutions._unique_groups in Hrun.
  eapply (foldM_Some_invariant _ I) in Hrun; [done..|].
  intros m d1 d2 _ Hinner HI.
  eapply (foldM_Some_invariant _ I) in Hinner; [done..|].
  intros numbers d3 d4 _ Hd4 HI3.
  apply unique_groups_step in Hd4 as [->|(group & ? & ? & ->)]; [done|].
  by apply Hstep.
Qed.

Lemma unique_groups_NoDup all_numbers size d :
  Solutions._unique_groups all_numbers size = Some d → NoDup d.*1.
Proof.
  intros Hrun.
  apply (unique_groups_invariant (λ d, NoDup d.*1) _ _ _ Hrun).
  - constructor.
  - intros d1 numbers group _ Hfresh Hnodup.
    rewrite fmap_app. apply NoDup_app. split_and!; [done| |].
    + intros k Hk ->%list_elem_of_singleton. done.
    + apply NoDup_singleton.
Qed.

(** Every group is what the constructor builds from the entries that
    precede it. *)
Lemma unique_groups_provenance all_numbers size d :
  Solutions._unique_groups all_numbers size = Some d →
  ∀ i k g, d !! i = Some (k, g) → Group.init k (take i d) = Some g.
Proof.
  intros Hrun.
  apply (unique_groups_invariant
           (λ d, ∀ i k g, d !! i = Some (k, g)
                          → Group.init k (take i d) = Some g) _ _ _ Hrun).
  - by intros i k g ?.
  - intros d1 numbers group Hinit _ IH i k g Hi.
    destruct (decide (i < length d1)%nat) as [Hlt|Hge].
    + rewrite (lookup_app_l d1) in Hi by done.
      rewrite (take_app_le d1) by lia. by apply IH.
    + rewrite (lookup_app_r d1) in Hi by lia.
      destruct (i - length d1)%nat as [|?] eqn:Hdiff; [|done].
      injection Hi as <- <-.
      replace i with (length d1) by lia.
      by rewrite (take_app_length d1).
Qed.

End dictionary.

(** X7. The dictionary holds exactly one group for each distinct
    non-empty subsequence of the source numbers: the keys are pairwise
    different, they are the non-empty subsequences, each group is stored
    under its own tuple and found there, and shorter tuples come
    first. *)
Theorem all_groups_exact (numbers : list Z) :
  ∃ sol,
    Solutions.init numbers = Some sol
    ∧ NoDup (Solutions.all_groups sol).*1
    ∧ (∀ k, k ∈ (Solutions.all_groups sol).*1 ↔
            k `sublist_of` numbers ∧ k ≠ [])
    ∧ (∀ k g, (k, g) ∈ Solutions.all_groups sol →
              Group.numbers g = k
              ∧ Group.size g = Z.of_nat (length k)
              ∧ Group.get (Solutions.all_groups sol) k = Some g)
    ∧ (∀ i j kvi kvj,
         Solutions.all_groups sol !! i = Some kvi →
         Solutions.all_groups sol !! j = Some kvj →
         (i < j)%nat → (length kvi.1 ≤ length kvj.1)%nat).
Proof.
  destruct (Solutions_init_ok numbers) as (sol & Hsol & [Hentries Hsorted] & Hcomp).
  exists sol. split; [done|].
  assert (NoDup (Solutions.all_groups sol).*1) as Hnodup.
  { unfold Solutions.init in Hsol.
    destruct (Solutions._unique_groups _ _) as [d|] eqn:Hd; [|done].
    injection Hsol as <-. simpl. by eapply unique_groups_NoDup. }
  rewrite Forall_forall in Hentries.
  split_and!; [done| | |].
  - intros k. split.
    + intros ([k' g] & -> & Hkv)%list_elem_of_fmap.
      destruct (Hentries _ Hkv) as (_ & ? & ? & _). simpl in *.
      split; [done|]. intros ->. simpl in *. lia.
    + intros [Hsub Hne].
      destruct (Hcomp k Hsub) as [g Hg].
      { split; [destruct k; [done|simpl; lia]|by apply sublist_length]. }
      apply get_Some_elem_of in Hg.
      by apply (list_elem_of_fmap_2 fst) in Hg.
  - intros k g Hkv.
    destruct (Hentries _ Hkv) as (Hkey & _ & _ & Hsize & _). simpl in *.
    split_and!; [done|by rewrite Hsize, Hkey|by apply get_NoDup].
  - intros i j kvi kvj Hi Hj Hlt.
    by apply (StronglySorted_lookup_lt _ _ i j kvi kvj Hsorted).
Qed.


(** ** The partitions of a group, exactly *)

Section partition_exact.

Context (all_numbers : list Z) (m : nat) (d : Group.dict) (numbers : list Z).
Hypothesis Hd : dict_ok all_numbers m d.
Hypothesis Hcomplete : dict_complete all_numbers (length numbers - 1) d.
Hypothesis Hsub : numbers `sublist_of` all_numbers.

Lemma get_numbers key g : Group.get d key = Some g → Group.numbers g = key.
Proof.
  intros Hg%get_Some_elem_of. destruct Hd as [Hentries _].
  rewrite Forall_forall in Hentries. by destruct (Hentries _ Hg) as [? _].
Qed.

Lemma partition_step_exact visited st p :
  (0 < length p.1 < length numbers)%nat →
  p.1 `sublist_of` numbers → p.2 = Group.filtering numbers p.1 →
  partition_state_ok numbers d visited st →
  ∃ st', Group.partition_step d st p = Some st'
         ∧ partition_state_ok numbers d (visited ++ [p.1]) st'.
Proof.
  intros Hlen Hp1 Hp2 (Hu & Hnodup & Hfirsts & Hpairs).
  destruct st as [unique_numbers yielded], p as [numbers1 numbers2].
  simpl in *. subst numbers2. case_decide as Hseen.
  - eexists. split; [done|]. split_and!; simpl; [|done| |done].
    + intros n1. rewrite Hu, elem_of_app, list_elem_of_singleton.
      split; [by left|]. intros [?| ->]; [done|by apply Hu].
    + intros n1. rewrite Hfirsts, elem_of_app, list_elem_of_singleton.
      split; [by left|]. intros [?| ->]; [done|by apply Hu].
  - destruct (Hcomplete numbers1) as [group1 Hg1]; [by etrans|lia|].
    destruct (Hcomplete (Group.filtering numbers numbers1)) as [group2 Hg2].
    { etrans; [apply filtering_sublist|done]. }
    { pose proof (filtering_length numbers numbers1 Hp1). lia. }
    rewrite Hg1, Hg2. simpl. eexists. split; [done|].
    pose proof (get_numbers _ _ Hg1) as Hn1.
    pose proof (get_numbers _ _ Hg2) as Hn2.
    assert (firsts (yielded ++ [(group1, group2)])
            = firsts yielded ++ [numbers1]) as Hsnoc.
    { unfold firsts. rewrite fmap_app. simpl. by rewrite Hn1. }
    split_and!; simpl.
    + intros n1.
      rewrite elem_of_union, elem_of_singleton, Hu, elem_of_app,
        list_elem_of_singleton. tauto.
    + rewrite Hsnoc.
      apply NoDup_app. split_and!; [done| |apply NoDup_singleton].
      intros n1 Hin ->%list_elem_of_singleton.
      by apply Hseen, Hu, Hfirsts.
    + intros n1. rewrite Hsnoc, !elem_of_app, Hfirsts. done.
    + apply Forall_app. split; [done|]. apply Forall_singleton. simpl.
      by rewrite Hn1, Hn2.
Qed.

Lemma selections_of_snoc entries m' limit :
  selections_of numbers (entries ++ [(Some m', limit)])
  = selections_of numbers entries
    ++ (fst <$> Group._paired_combinations numbers (Z.to_nat m') (mjoin limit)).
Proof.
  unfold selections_of. rewrite bind_app. simpl. by rewrite app_nil_r.
Qed.

(** The partition builder does not raise, and what it yields is one
    partition for each distinct selection. *)
Lemma partition_with_exact halfbinom :
  (2 ≤ length numbers)%nat →
  ∃ partitions,
    Group.partition_with numbers (Z.of_nat (length numbers)) d halfbinom
    = Some partitions
    ∧ partition_state_ok numbers d (selections numbers halfbinom)
                         (list_to_set (firsts partitions), partitions).
Proof.
  intros Hlen. unfold Group.partition_with, selections.
  set (size := Z.of_nat (length numbers)).
  assert (range ((size + 1) / 2) size ≠ []) as Hne.
  { unfold range. rewrite seqZ_cons; [done|].
    pose proof (Z.div_lt_upper_bound (size + 1) 2 size). lia. }
  match goal with
  | |- ∃ _, snd <$> foldM ?f ?s ?l = _ ∧ _ =>
      destruct (foldM_invariant_prefix f
                  (λ entries st,
                     partition_state_ok numbers d
                       (selections_of numbers entries) st) l s)
        as (st' & Hst' & HI)
  end.
  - split_and!; simpl; [|constructor| |constructor].
    + intros n1. by rewrite elem_of_empty, elem_of_nil.
    + intros n1. done.
  - intros entries [m' limit] rest st Hsplit HI.
    assert ((m', limit) ∈ itertools.zip_longest (range ((size + 1) / 2) size)
                                                [halfbinom]) as Hx.
    { rewrite Hsplit. apply elem_of_app. right. constructor. }
    apply elem_of_zip_longest_singleton in Hx as (size1 & Hm' & Hin); [|done].
    simpl in Hm'. subst m'. simpl. rewrite selections_of_snoc.
    apply elem_of_seqZ in Hin.
    assert (1 ≤ (size + 1) / 2) by (apply Z.div_le_lower_bound; lia).
    match goal with
    | |- ∃ _, foldM ?f ?s ?l = _ ∧ _ =>
        destruct (foldM_invariant_prefix f
                    (λ pairs st,
                       partition_state_ok numbers d
                         (selections_of numbers entries ++ (fst <$> pairs))
                         st) l s)
          as (st1 & Hst1 & HI1)
    end.
    + by rewrite app_nil_r.
    + intros pairs p rest' st1 Hsplit' HI1.
      assert (p ∈ Group._paired_combinations numbers (Z.to_nat size1)
                                            (mjoin limit)) as Hp.
      { rewrite Hsplit'. apply elem_of_app. right. constructor. }
      apply elem_of_paired_combinations in Hp as (Hp1 & Hp2 & Hp3).
      rewrite fmap_app, app_assoc. simpl.
      apply partition_step_exact; [lia|done..].
    + by exists st1.
  - exists st'.2. rewrite Hst'. split; [done|].
    destruct HI as (Hu & Hnodup & Hfirsts & Hpairs).
    split_and!; simpl; [|done..].
    intros n1. by rewrite elem_of_list_to_set, Hfirsts.
Qed.

End partition_exact.

(** ** Which selections the partition builder goes through *)

Section selections.

Lemma length_combinations {A} (l : list A) (r : nat) :
  length (itertools.combinations l r) = binomial (length l) r.
Proof.
  revert r. induction l as [|x t IH]; intros [|r]; simpl; try done.
  by rewrite length_app, length_fmap, !IH.
Qed.

Lemma binomial_pos n k : (k ≤ n)%nat → (0 < binomial n k)%nat.
Proof.
  revert k. induction n as [|n IH]; intros [|k] Hle; simpl; try lia.
  specialize (IH k). lia.
Qed.

Lemma paired_combinations_firsts numbers m limit :
  fst <$> Group._paired_combinations numbers m limit
  = match limit with
    | Some l => if decide (1 ≤ l)
                then take (Z.to_nat l) (itertools.combinations numbers m)
                else itertools.combinations numbers m
    | None => itertools.combinations numbers m
    end.
Proof.
  unfold Group._paired_combinations. rewrite paired_loop_take.
  rewrite <-list_fmap_compose.
  destruct limit as [l|]; [case_decide|];
    rewrite ?Z.sub_add; apply list_fmap_id.
Qed.

Lemma selections_unfold numbers halfbinom :
  (2 ≤ length numbers)%nat →
  selections numbers halfbinom
  = (fst <$> Group._paired_combinations numbers
               (Z.to_nat ((Z.of_nat (length numbers) + 1) / 2)) halfbinom)
    ++ (m' ← seqZ ((Z.of_nat (length numbers) + 1) / 2 + 1)
                  (Z.of_nat (length numbers)
                   - (Z.of_nat (length numbers) + 1) / 2 - 1);
        fst <$> Group._paired_combinations numbers (Z.to_nat m') None).
Proof.
  intros Hlen. unfold selections, range.
  set (size := Z.of_nat (length numbers)).
  pose proof (Z.div_lt_upper_bound (size + 1) 2 size).
  rewrite seqZ_cons by lia. simpl.
  rewrite zip_longest_nil_r. unfold selections_of at 1. simpl. f_equal.
  replace (Z.succ ((size + 1) / 2)) with ((size + 1) / 2 + 1) by lia.
  replace (Z.pred (size - (size + 1) / 2))
    with (size - (size + 1) / 2 - 1) by lia.
  generalize (seqZ ((size + 1) / 2 + 1) (size - (size + 1) / 2 - 1)).
  intros l. induction l as [|a l IH]; [done|].
  simpl. f_equal. exact IH.
Qed.

(** Every selection is a proper subsequence at least as long as what it
    leaves. *)
Lemma elem_of_selections_inv numbers halfbinom numbers1 :
  (2 ≤ length numbers)%nat →
  numbers1 ∈ selections numbers halfbinom →
  numbers1 `sublist_of` numbers
  ∧ (length numbers ≤ 2 * length numbers1)%nat
  ∧ (length numbers1 < length numbers)%nat.
Proof.
  intros Hlen. rewrite selections_unfold by done.
  set (size := Z.of_nat (length numbers)).
  assert (size ≤ 2 * ((size + 1) / 2)).
  { pose proof (Z.div_mod (size + 1) 2 ltac:(lia)).
    pose proof (Z.mod_pos_bound (size + 1) 2 ltac:(lia)). lia. }
  pose proof (Z.div_lt_upper_bound (size + 1) 2 size).
  intros [Hin|Hin]%elem_of_app.
  - apply list_elem_of_fmap in Hin as (p & -> & Hp).
    apply elem_of_paired_combinations in Hp as (? & Hl & _).
    split; [done|]. lia.
  - apply list_elem_of_bind in Hin as (m' & Hin & Hm').
    apply elem_of_seqZ in Hm'.
    apply list_elem_of_fmap in Hin as (p & -> & Hp).
    apply elem_of_paired_combinations in Hp as (? & Hl & _).
    split; [done|]. lia.
Qed.

(** A selection longer than half of the numbers is always visited. *)
Lemma elem_of_selections_large numbers numbers1 :
  numbers1 `sublist_of` numbers →
  (length numbers < 2 * length numbers1)%nat →
  (length numbers1 < length numbers)%nat →
  numbers1 ∈ selections numbers
               (Group._halfbinom (Z.of_nat (length numbers))
                                 (Z.of_nat (length numbers) / 2)).
Proof.
  intros Hsub Hlarge Hproper.
  assert (2 ≤ length numbers)%nat as Hlen by (destruct numbers1; simpl in *; lia).
  rewrite selections_unfold by done.
  set (size := Z.of_nat (length numbers)).
  pose proof (Z.div_mod (size + 1) 2 ltac:(lia)) as Hdm.
  pose proof (Z.mod_pos_bound (size + 1) 2 ltac:(lia)) as Hmb.
  apply elem_of_app.
  destruct (decide (Z.of_nat (length numbers1) = (size + 1) / 2)) as [Heq|Hne].
  - left. rewrite halfbinom_odd.
    + rewrite paired_combinations_firsts, <-Heq, Nat2Z.id.
      by apply combinations_complete.
    + assert (size + 1 = 2 * ((size + 1) / 2)) as Heven by lia.
      replace size with (1 + ((size + 1) / 2 - 1) * 2) by lia.
      by rewrite Z.mod_add.
  - right. apply list_elem_of_bind. exists (Z.of_nat (length numbers1)).
    split.
    + rewrite paired_combinations_firsts, Nat2Z.id.
      by apply combinations_complete.
    + apply elem_of_seqZ. lia.
Qed.

(** For an even size the limit keeps exactly the selections of half
    the numbers that contain the first one. *)
Lemma elem_of_selections_half x tail c :
  c `sublist_of` tail →
  (length tail = 2 * length c + 1)%nat →
  x :: c ∈ selections (x :: tail)
             (Group._halfbinom (Z.of_nat (length (x :: tail)))
                               (Z.of_nat (length (x :: tail)) / 2)).
Proof.
  intros Hsub Hlen.
  rewrite selections_unfold by (simpl; lia).
  set (j := length c) in *.
  assert (Z.of_nat (length (x :: tail)) = Z.of_nat (2 * S j)) as ->
    by (simpl; lia).
  apply elem_of_app. left.
  destruct (halfbinom_even (Z.of_nat (2 * S j))) as [-> Hexact]; [lia| |].
  { rewrite Nat2Z.inj_mul, Z.mul_comm. apply Z.mod_mul. lia. }
  assert (Z.of_nat (2 * S j) / 2 = Z.of_nat (S j)) as Hhalf.
  { rewrite Nat2Z.inj_mul, Z.mul_comm, Z.div_mul; lia. }
  assert ((Z.of_nat (2 * S j) + 1) / 2 = Z.of_nat (S j)) as Hhalf'.
  { replace (Z.of_nat (2 * S j) + 1) with (1 + Z.of_nat (S j) * 2) by lia.
    rewrite Z.div_add by lia. done. }
  rewrite Hhalf in *. rewrite Hhalf', !Nat2Z.id in *.
  rewrite binomial_central in *.
  replace (Z.of_nat (2 * binomial (2 * j + 1) j) / 2)
    with (Z.of_nat (binomial (2 * j + 1) j)).
  2:{ rewrite Nat2Z.inj_mul, Z.mul_comm, Z.div_mul; lia. }
  rewrite paired_combinations_firsts.
  pose proof (binomial_pos (2 * j + 1) j ltac:(lia)).
  rewrite decide_True by lia. rewrite Nat2Z.id. simpl.
  rewrite take_app_length'.
  - apply list_elem_of_fmap_2. by apply combinations_complete.
  - rewrite length_fmap, length_combinations. by rewrite Hlen.
Qed.

Lemma sublist_complement {A} (l1 l : list A) :
  l1 `sublist_of` l → ∃ c, c `sublist_of` l ∧ c ++ l1 ≡ₚ l.
Proof.
  induction 1 as [|x l1 l _ (c & Hc & Hperm)|x l1 l _ (c & Hc & Hperm)].
  - by exists [].
  - exists c. split; [by apply sublist_cons|].
    by rewrite <-Permutation_middle, Hperm.
  - exists (x :: c). split; [by apply sublist_skip|].
    simpl. by rewrite Hperm.
Qed.

(** Every way of splitting the numbers in two non-empty parts is
    visited, from one side or the other. *)
Lemma selections_complete numbers numbers1 :
  numbers1 `sublist_of` numbers →
  (0 < length numbers1 < length numbers)%nat →
  ∃ s, s ∈ selections numbers
             (Group._halfbinom (Z.of_nat (length numbers))
                               (Z.of_nat (length numbers) / 2))
       ∧ (s = numbers1 ∨ Group.filtering numbers s ≡ₚ numbers1).
Proof.
  intros Hsub Hlen.
  assert (∀ c, c `sublist_of` numbers → c ++ numbers1 ≡ₚ numbers →
               Group.filtering numbers c ≡ₚ numbers1) as Hother.
  { intros c Hc Hperm. apply (Permutation_app_inv_l c).
    by rewrite filtering_Permutation. }
  destruct (decide (length numbers < 2 * length numbers1)%nat) as [Hlarge|Hsmall].
  { exists numbers1. split; [|by left].
    apply elem_of_selections_large; [done|done|lia]. }
  destruct (decide (length numbers = 2 * length numbers1)%nat) as [Hhalf|Hne].
  - destruct numbers as [|x tail]; [simpl in *; lia|].
    apply sublist_cons_r in Hsub as [Hsub|(c & -> & Hsub)].
    + destruct (sublist_complement _ _ Hsub) as (c & Hc & Hperm).
      exists (x :: c). split.
      * apply elem_of_selections_half; [done|].
        apply Permutation_length in Hperm. rewrite length_app in Hperm.
        simpl in *. lia.
      * right. apply Hother; [by apply sublist_skip|].
        simpl. by rewrite Hperm.
    + exists (x :: c). split; [|by left].
      apply elem_of_selections_half; [done|]. simpl in *. lia.
  - destruct (sublist_complement _ _ Hsub) as (c & Hc & Hperm).
    exists c. split; [|right; by apply Hother].
    apply Permutation_length in Hperm as Hl. rewrite length_app in Hl.
    apply elem_of_selections_large; [done|lia|lia].
Qed.

End selections.

(** ** Each group of the finished dictionary *)

Section entries.

Lemma dict_ok_take all_numbers m d i :
  dict_ok all_numbers m d → dict_ok all_numbers m (take i d).
Proof.
  intros [Hentries Hsorted]. split.
  - by apply Forall_take.
  - eapply StronglySorted_sublist_of; [apply sublist_take|done].
Qed.

Lemma get_lookup d key g :
  Group.get d key = Some g → ∃ j, d !! j = Some (key, g).
Proof. intros Hg%get_Some_elem_of. by apply list_elem_of_lookup_1. Qed.

(** When a group is built, the groups of all shorter subsequences are
    already there. *)
Lemma dict_complete_take all_numbers m d i k g :
  dict_ok all_numbers m d → dict_complete all_numbers m d →
  d !! i = Some (k, g) →
  dict_complete all_numbers (length k - 1) (take i d).
Proof.
  intros [Hentries Hsorted] Hcomp Hi c Hc Hlen.
  assert (length k ≤ m)%nat as Hk.
  { rewrite Forall_forall in Hentries.
    destruct (Hentries (k, g)) as (_ & _ & ? & _);
      [by eapply list_elem_of_lookup_2|]. simpl in *. lia. }
  destruct (Hcomp c Hc) as [g' Hg']; [lia|].
  apply get_lookup in Hg' as [j Hj].
  assert (j < i)%nat as Hji.
  { destruct (decide (j < i)%nat) as [|Hge]; [done|].
    destruct (decide (j = i)) as [->|Hne].
    - rewrite Hi in Hj. injection Hj as -> _. lia.
    - pose proof (StronglySorted_lookup_lt _ _ i j _ _ Hsorted Hi Hj
                    ltac:(lia)) as Hle.
      simpl in Hle. lia. }
  apply not_eq_None_Some. rewrite get_None. intros Habsent. apply Habsent.
  apply (list_elem_of_fmap_2' fst _ (c, g')); [|done].
  apply (list_elem_of_lookup_2 _ j). by rewrite lookup_take_lt.
Qed.

Lemma init_Some_inv numbers d g :
  Group.init numbers d = Some g →
  Group.numbers g = numbers
  ∧ Group.size g = Z.of_nat (length numbers)
  ∧ Group._partition_into_unique_pairs numbers (Z.of_nat (length numbers)) d
    = Some (Group.partitions g)
  ∧ Group._perform_calculations numbers (Z.of_nat (length numbers))
                                (Group.partitions g)
    = Some (Group.calculations g).
Proof.
  unfold Group.init.
  destruct (Group._partition_into_unique_pairs _ _ _) as [ps|] eqn:Hps;
    [|done].
  simpl. destruct (Group._perform_calculations _ _ ps) as [cs|] eqn:Hcs;
    [|done].
  simpl. intros [= <-]. simpl. by rewrite Hcs.
Qed.

Context (numbers : list Z) (sol : Solutions.t).
Hypothesis Hsol : Solutions.init numbers = Some sol.

(** What is known when the group at position [i] is built. *)
Lemma entry_built i k g :
  Solutions.all_groups sol !! i = Some (k, g) →
  dict_ok numbers (length numbers) (take i (Solutions.all_groups sol))
  ∧ dict_complete numbers (length k - 1) (take i (Solutions.all_groups sol))
  ∧ k `sublist_of` numbers
  ∧ (0 < length k)%nat
  ∧ Group.init k (take i (Solutions.all_groups sol)) = Some g.
Proof.
  intros Hi. unfold Solutions.init in Hsol.
  destruct (Solutions._unique_groups _ _) as [d|] eqn:Hd; [|done].
  injection Hsol as <-. simpl in *.
  destruct (unique_groups_ok numbers) as (d' & Hd' & Hok & Hcomp).
  rewrite Hd in Hd'. injection Hd' as <-.
  split_and!.
  - by apply dict_ok_take.
  - by eapply dict_complete_take.
  - destruct Hok as [Hentries _]. rewrite Forall_forall in Hentries.
    destruct (Hentries (k, g)) as (_ & ? & _);
      [by eapply list_elem_of_lookup_2|done].
  - destruct Hok as [Hentries _]. rewrite Forall_forall in Hentries.
    destruct (Hentries (k, g)) as (_ & _ & ? & _);
      [by eapply list_elem_of_lookup_2|]. simpl in *. lia.
  - by eapply unique_groups_provenance.
Qed.

Lemma entry_partitions_single i k g :
  Solutions.all_groups sol !! i = Some (k, g) →
  length k = 1%nat →
  Group.partitions g = []
  ∧ ∃ n, k = [n] ∧ Group.calculations g = [Calculation.singleton n].
Proof.
  intros Hi Hlen.
  destruct (entry_built i k g Hi) as (_ & _ & _ & _ & Hinit).
  apply init_Some_inv in Hinit as (_ & _ & Hparts & Hcalcs).
  unfold Group._partition_into_unique_pairs in Hparts.
  unfold Group._perform_calculations in Hcalcs.
  rewrite Hlen in *. simpl in *.
  injection Hparts as Hparts. split; [done|].
  destruct k as [|n [|??]]; try done. exists n. split; [done|].
  simpl in Hcalcs. by injection Hcalcs.
Qed.

Lemma entry_partitions i k g :
  Solutions.all_groups sol !! i = Some (k, g) →
  (2 ≤ length k)%nat →
  partition_state_ok k (take i (Solutions.all_groups sol))
    (selections k (Group._halfbinom (Z.of_nat (length k))
                                    (Z.of_nat (length k) / 2)))
    (list_to_set (firsts (Group.partitions g)), Group.partitions g).
Proof.
  intros Hi Hlen.
  destruct (entry_built i k g Hi) as (Hok & Hcomp & Hsub & _ & Hinit).
  apply init_Some_inv in Hinit as (_ & _ & Hparts & _).
  unfold Group._partition_into_unique_pairs in Hparts.
  rewrite decide_False in Hparts by lia.
  destruct (partition_with_exact numbers _ _ k Hok Hcomp Hsub
              (Group._halfbinom (Z.of_nat (length k))
                                (Z.of_nat (length k) / 2)) Hlen)
    as (ps & Hps & Hstate).
  rewrite Hps in Hparts. by injection Hparts as <-.
Qed.

(** The two groups of a stored partition. *)
Lemma entry_partition i k g p :
  Solutions.all_groups sol !! i = Some (k, g) →
  p ∈ Group.partitions g →
  (2 ≤ length k)%nat
  ∧ Group.numbers p.1 ∈ selections k
      (Group._halfbinom (Z.of_nat (length k)) (Z.of_nat (length k) / 2))
  ∧ Group.numbers p.2 = Group.filtering k (Group.numbers p.1)
  ∧ (∃ j, (j < i)%nat
          ∧ Solutions.all_groups sol !! j = Some (Group.numbers p.1, p.1))
  ∧ (∃ j, (j < i)%nat
          ∧ Solutions.all_groups sol !! j = Some (Group.numbers p.2, p.2)).
Proof.
  intros Hi Hp.
  destruct (entry_built i k g Hi) as (_ & _ & _ & Hpos & _).
  destruct (decide (length k = 1%nat)) as [H1|H1].
  { destruct (entry_partitions_single i k g Hi H1) as [Hnil _].
    rewrite Hnil in Hp. by apply elem_of_nil in Hp. }
  assert (2 ≤ length k)%nat as Hlen by lia. split; [done|].
  destruct (entry_partitions i k g Hi Hlen) as (_ & _ & Hfirsts & Hpairs).
  simpl in *. rewrite Forall_forall in Hpairs.
  destruct (Hpairs p Hp) as (Hg1 & Hg2 & Hn2).
  split_and!; [|done| |].
  - apply Hfirsts. unfold firsts.
    by apply (list_elem_of_fmap_2 (λ p, Group.numbers p.1)).
  - apply get_lookup in Hg1 as [j Hj].
    apply lookup_take_Some in Hj as [??]. by exists j.
  - apply get_lookup in Hg2 as [j Hj].
    apply lookup_take_Some in Hj as [??]. by exists j.
Qed.

End entries.

Lemma selections_half_first x tail j :
  (length tail = 2 * j + 1)%nat →
  fst <$> Group._paired_combinations (x :: tail)
            (Z.to_nat ((Z.of_nat (length (x :: tail)) + 1) / 2))
            (Group._halfbinom (Z.of_nat (length (x :: tail)))
                              (Z.of_nat (length (x :: tail)) / 2))
  = cons x <$> itertools.combinations tail j.
Proof.
  intros Hlen.
  assert (Z.of_nat (length (x :: tail)) = Z.of_nat (2 * S j)) as ->
    by (simpl; lia).
  destruct (halfbinom_even (Z.of_nat (2 * S j))) as [-> Hexact]; [lia| |].
  { rewrite Nat2Z.inj_mul, Z.mul_comm. apply Z.mod_mul. lia. }
  assert (Z.of_nat (2 * S j) / 2 = Z.of_nat (S j)) as Hhalf.
  { rewrite Nat2Z.inj_mul, Z.mul_comm, Z.div_mul; lia. }
  assert ((Z.of_nat (2 * S j) + 1) / 2 = Z.of_nat (S j)) as Hhalf'.
  { replace (Z.of_nat (2 * S j) + 1) with (1 + Z.of_nat (S j) * 2) by lia.
    rewrite Z.div_add by lia. done. }
  rewrite Hhalf in *. rewrite Hhalf', !Nat2Z.id in *.
  rewrite binomial_central in *.
  replace (Z.of_nat (2 * binomial (2 * j + 1) j) / 2)
    with (Z.of_nat (binomial (2 * j + 1) j)).
  2:{ rewrite Nat2Z.inj_mul, Z.mul_comm, Z.div_mul; lia. }
  rewrite paired_combinations_firsts.
  pose proof (binomial_pos (2 * j + 1) j ltac:(lia)).
  rewrite decide_True by lia. rewrite Nat2Z.id. simpl.
  apply take_app_length'.
  rewrite length_fmap, length_combinations. by rewrite Hlen.
Qed.

(** A selection of exactly half of the numbers contains the first
    number. *)
Lemma elem_of_selections_half_inv x tail numbers1 :
  (length (x :: tail) = 2 * length numbers1)%nat →
  numbers1 ∈ selections (x :: tail)
               (Group._halfbinom (Z.of_nat (length (x :: tail)))
                                 (Z.of_nat (length (x :: tail)) / 2)) →
  ∃ c, numbers1 = x :: c ∧ c `sublist_of` tail.
Proof.
  intros Hlen.
  destruct numbers1 as [|y c0]; [simpl in *; lia|].
  rewrite selections_unfold by (simpl in *; lia).
  intros [Hin|Hin]%elem_of_app.
  - rewrite (selections_half_first x tail (length c0)) in Hin
      by (simpl in *; lia).
    apply list_elem_of_fmap in Hin as (c & -> & Hc).
    apply combinations_sublist in Hc as [??]. by exists c.
  - apply list_elem_of_bind in Hin as (m' & Hin & Hm').
    apply elem_of_seqZ in Hm'.
    apply list_elem_of_fmap in Hin as (p & Hp1 & Hp).
    apply elem_of_paired_combinations in Hp as (_ & Hl & _).
    rewrite <-Hp1 in Hl.
    set (size := Z.of_nat (length (x :: tail))) in *.
    assert (size = 2 * Z.of_nat (length (y :: c0))) as Hsize by lia.
    assert ((size + 1) / 2 = Z.of_nat (length (y :: c0))) as Hhalf.
    { rewrite Hsize.
      replace (2 * Z.of_nat (length (y :: c0)) + 1)
        with (1 + Z.of_nat (length (y :: c0)) * 2) by lia.
      rewrite Z.div_add by lia. done. }
    lia.
Qed.

(** X8. Every group of the dictionary is what the constructor builds
    from the entries stored before it, and the two groups of each of its
    partitions are themselves stored, under their own tuples, before
    it: the construction is bottom-up and never looks ahead. *)
Theorem groups_built_bottom_up (numbers : list Z) :
  ∃ sol,
    Solutions.init numbers = Some sol
    ∧ ∀ i k g,
        Solutions.all_groups sol !! i = Some (k, g) →
        Group.init k (take i (Solutions.all_groups sol)) = Some g
        ∧ ∀ p, p ∈ Group.partitions g →
               (∃ j, (j < i)%nat
                     ∧ Solutions.all_groups sol !! j
                       = Some (Group.numbers p.1, p.1))
               ∧ (∃ j, (j < i)%nat
                       ∧ Solutions.all_groups sol !! j
                         = Some (Group.numbers p.2, p.2)).
Proof.
  destruct (Solutions_init_ok numbers) as (sol & Hsol & _).
  exists sol. split; [done|]. intros i k g Hi. split.
  - by destruct (entry_built numbers sol Hsol i k g Hi) as (_ & _ & _ & _ & ?).
  - intros p Hp.
    by destruct (entry_partition numbers sol Hsol i k g p Hi Hp)
      as (_ & _ & _ & ? & ?).
Qed.

(** X9. Each stored partition splits the numbers of its group: the
    tuples of its two groups together are a rearrangement of the
    group's tuple, the second is what [filtering] leaves of the first,
    neither is empty, and the first is at least as long as the
    second. *)
Theorem partitions_split_numbers (numbers : list Z) :
  ∃ sol,
    Solutions.init numbers = Some sol
    ∧ ∀ k g p,
        (k, g) ∈ Solutions.all_groups sol → p ∈ Group.partitions g →
        Group.numbers p.1 ++ Group.numbers p.2 ≡ₚ k
        ∧ Group.numbers p.1 `sublist_of` k
        ∧ Group.numbers p.2 = Group.filtering k (Group.numbers p.1)
        ∧ (0 < length (Group.numbers p.2)
           ≤ length (Group.numbers p.1))%nat.
Proof.
  destruct (Solutions_init_ok numbers) as (sol & Hsol & _).
  exists sol. split; [done|]. intros k g p [i Hi]%list_elem_of_lookup_1 Hp.
  destruct (entry_partition numbers sol Hsol i k g p Hi Hp)
    as (Hlen & Hsel & Hn2 & _ & _).
  apply elem_of_selections_inv in Hsel as (Hsub & Hlarge & Hproper); [|done].
  pose proof (filtering_length k _ Hsub) as Hfl.
  split_and!; [|done|done|rewrite Hn2; lia..].
  rewrite Hn2. by apply filtering_Permutation.
Qed.

(** X10. No two stored partitions of a group have the same first
    group.  A pair of groups stored in both orders must have halves of
    equal length, and this cannot happen at all when the first number
    of the group's tuple occurs only once in it. *)
Theorem partitions_first_distinct (numbers : list Z) :
  ∃ sol,
    Solutions.init numbers = Some sol
    ∧ ∀ k g,
        (k, g) ∈ Solutions.all_groups sol →
        NoDup ((λ p, Group.numbers p.1) <$> Group.partitions g)
        ∧ (∀ p q,
             p ∈ Group.partitions g → q ∈ Group.partitions g →
             Group.numbers p.1 = Group.numbers q.2 →
             Group.numbers p.2 = Group.numbers q.1 →
             length (Group.numbers p.1) = length (Group.numbers p.2)
             ∧ ∀ x tail, k = x :: tail → x ∈ tail).
Proof.
  destruct (Solutions_init_ok numbers) as (sol & Hsol & _).
  exists sol. split; [done|]. intros k g [i Hi]%list_elem_of_lookup_1. split.
  - destruct (decide (length k = 1%nat)) as [H1|H1].
    + destruct (entry_partitions_single numbers sol Hsol i k g Hi H1)
        as [-> _]. constructor.
    + destruct (entry_built numbers sol Hsol i k g Hi) as (_ & _ & _ & ? & _).
      by destruct (entry_partitions numbers sol Hsol i k g Hi ltac:(lia))
        as (_ & ? & _).
  - intros p q Hp Hq Hpq1 Hpq2.
    destruct (entry_partition numbers sol Hsol i k g p Hi Hp)
      as (Hlen & Hselp & Hp2 & _ & _).
    destruct (entry_partition numbers sol Hsol i k g q Hi Hq)
      as (_ & Hselq & Hq2 & _ & _).
    pose proof Hselp as Hselp'. pose proof Hselq as Hselq'.
    apply elem_of_selections_inv in Hselp' as (Hsubp & Hlargep & _); [|done].
    apply elem_of_selections_inv in Hselq' as (Hsubq & Hlargeq & _); [|done].
    pose proof (filtering_length k _ Hsubp) as Hflp.
    pose proof (filtering_length k _ Hsubq) as Hflq.
    rewrite <-Hp2 in Hflp. rewrite <-Hq2 in Hflq.
    rewrite <-Hpq1, <-Hpq2 in *.
    assert (length (Group.numbers p.1) = length (Group.numbers p.2)) as Heq
      by lia.
    split; [done|]. intros x tail ->.
    apply elem_of_selections_half_inv in Hselp as (c & Hc & Hctail);
      [|lia].
    apply elem_of_selections_half_inv in Hselq as (c' & Hc' & _);
      [|lia].
    rewrite Hp2, Hc, filtering_cons, decide_True in Hc' by done.
    assert (x ∈ Group.filtering tail c) as Hx by (rewrite Hc'; constructor).
    by apply (sublist_subseteq _ _ (filtering_sublist tail c)) in Hx.
Qed.

(** X11. No way of splitting the numbers of a group is missed: for every
    proper non-empty subsequence of the group's tuple there is a stored
    partition one of whose groups has the numbers of that subsequence
    (the other one having the rest). *)
Theorem partitions_cover_every_split (numbers : list Z) :
  ∃ sol,
    Solutions.init numbers = Some sol
    ∧ ∀ k g numbers1,
        (k, g) ∈ Solutions.all_groups sol →
        numbers1 `sublist_of` k →
        (0 < length numbers1 < length k)%nat →
        ∃ p, p ∈ Group.partitions g
             ∧ (Group.numbers p.1 = numbers1
                ∨ Group.numbers p.2 ≡ₚ numbers1).
Proof.
  destruct (Solutions_init_ok numbers) as (sol & Hsol & _).
  exists sol. split; [done|].
  intros k g numbers1 [i Hi]%list_elem_of_lookup_1 Hsub Hlen.
  destruct (entry_partitions numbers sol Hsol i k g Hi ltac:(lia))
    as (_ & _ & Hfirsts & Hpairs).
  destruct (selections_complete k numbers1 Hsub Hlen) as (s & Hs & Hcase).
  apply Hfirsts in Hs. simpl in Hs. unfold firsts in Hs.
  apply list_elem_of_fmap in Hs as (p & -> & Hp).
  exists p. split; [done|].
  destruct Hcase as [?|Hperm]; [by left|right].
  simpl in Hpairs. rewrite Forall_forall in Hpairs.
  destruct (Hpairs p Hp) as (_ & _ & ->). done.
Qed.

(** ** The calculations of each group *)

Lemma generate_not_singleton calca calcb c :
  c ∈ Calculation.generate calca calcb → Calculation.is_singleton c = false.
Proof.
  unfold Calculation.generate.
  destruct (Calculation.result calca <? Calculation.result calcb);
    by intros ([r op] & -> & _)%list_elem_of_fmap.
Qed.

(** X12. A group of one number has no partition and exactly one
    calculation, the singleton of that number.  The calculations of a
    larger group are exactly what [generate] makes of the pairs of
    calculations of the two groups of its partitions, and none of them
    is marked as a singleton. *)
Theorem calculations_by_size (numbers : list Z) :
  ∃ sol,
    Solutions.init numbers = Some sol
    ∧ ∀ k g,
        (k, g) ∈ Solutions.all_groups sol →
        (∀ n, k = [n] →
              Group.partitions g = []
              ∧ Group.calculations g = [Calculation.singleton n])
        ∧ ((2 ≤ length k)%nat →
           ∀ c, c ∈ Group.calculations g ↔
                ∃ p calc1 calc2,
                  p ∈ Group.partitions g
                  ∧ calc1 ∈ Group.calculations p.1
                  ∧ calc2 ∈ Group.calculations p.2
                  ∧ c ∈ Calculation.generate calc1 calc2)
        ∧ ((2 ≤ length k)%nat →
           ∀ c, c ∈ Group.calculations g →
                Calculation.is_singleton c = false).
Proof.
  destruct (Solutions_init_ok numbers) as (sol & Hsol & _).
  exists sol. split; [done|]. intros k g [i Hi]%list_elem_of_lookup_1.
  assert ((2 ≤ length k)%nat →
          ∀ c, c ∈ Group.calculations g ↔
               ∃ p calc1 calc2,
                 p ∈ Group.partitions g
                 ∧ calc1 ∈ Group.calculations p.1
                 ∧ calc2 ∈ Group.calculations p.2
                 ∧ c ∈ Calculation.generate calc1 calc2) as Hcalcs.
  { intros Hlen c.
    destruct (entry_built numbers sol Hsol i k g Hi) as (_ & _ & _ & _ & Hinit).
    apply init_Some_inv in Hinit as (_ & _ & _ & Hcalcs).
    unfold Group._perform_calculations in Hcalcs.
    rewrite decide_False in Hcalcs by lia. injection Hcalcs as <-.
    rewrite list_elem_of_bind. split.
    - intros ([group1 group2] & Hc & Hp).
      apply list_elem_of_bind in Hc as ([calc1 calc2] & Hc & Hprod).
      unfold itertools.product in Hprod.
      apply list_elem_of_bind in Hprod as (calc1' & Hpair & Hc1).
      apply list_elem_of_fmap in Hpair as (calc2' & [= -> ->] & Hc2).
      by exists (group1, group2), calc1', calc2'.
    - intros ([group1 group2] & calc1 & calc2 & Hp & Hc1 & Hc2 & Hc).
      exists (group1, group2). split; [|done].
      apply list_elem_of_bind. exists (calc1, calc2). split; [done|].
      unfold itertools.product. apply list_elem_of_bind.
      exists calc1. split; [|done]. by apply list_elem_of_fmap_2. }
  split_and!; [|done|].
  - intros n ->.
    destruct (entry_partitions_single numbers sol Hsol i [n] g Hi eq_refl)
      as (Hnil & n' & [= <-] & Hc). done.
  - intros Hlen c (p & calc1 & calc2 & _ & _ & _ & Hc)%Hcalcs; [|done].
    by eapply generate_not_singleton.
Qed.

(** ** The engine on whole inputs *)

Lemma singleton_sublist {A} (x : A) (l : list A) : x ∈ l → [x] `sublist_of` l.
Proof.
  intros (l1 & l2 & ->)%list_elem_of_split.
  apply sublist_inserts_l, sublist_skip, sublist_nil_l.
Qed.

Lemma singleton_in_walk numbers sol n :
  Solutions.init numbers = Some sol → n ∈ numbers →
  Calculation.singleton n ∈ Solutions.walk sol.
Proof.
  intros Hsol Hn.
  destruct (Solutions_init_ok numbers) as (sol' & Hsol' & _ & Hcomp).
  rewrite Hsol in Hsol'. injection Hsol' as <-.
  destruct (Hcomp [n]) as [g Hg].
  { by apply singleton_sublist. }
  { simpl. apply list_elem_of_split in Hn as (l1 & l2 & ->).
    rewrite length_app. simpl. lia. }
  apply get_lookup in Hg as [i Hi].
  destruct (entry_partitions_single numbers sol Hsol i [n] g Hi eq_refl)
    as (_ & n' & [= <-] & Hc).
  apply elem_of_walk. exists ([n], g).
  split; [by eapply list_elem_of_lookup_2|].
  simpl. rewrite Hc. constructor.
Qed.

Lemma scan_nonempty target calcs c :
  c ∈ calcs → diff target c ≤ target → (scan target calcs).2 ≠ [].
Proof.
  intros Hc Hclose Hempty.
  pose proof (scan_fst_lower_bound target calcs c Hc) as Hlow.
  rewrite scan_snd_filter in Hempty.
  destruct (scan_fst_attained target calcs) as [Heq|(c' & Hc' & Heq)].
  - assert (c ∈ filter (λ c, diff target c = (scan target calcs).1) calcs)
      as Hin by (apply list_elem_of_filter; split; [lia|done]).
    rewrite Hempty in Hin. by apply elem_of_nil in Hin.
  - assert (c' ∈ filter (λ c, diff target c = (scan target calcs).1) calcs)
      as Hin by (by apply list_elem_of_filter).
    rewrite Hempty in Hin. by apply elem_of_nil in Hin.
Qed.

(** X13. If some source number is no further from the target than the
    target's own value, the engine reports at least one result, the
    reported difference is between 0 and the distance of that number,
    and every reported result is at exactly the reported difference. *)
Theorem result_when_a_number_is_close (target : Z) (numbers : list Z) (n : Z) :
  n ∈ numbers → Z.abs (n - target) ≤ target →
  ∃ out,
    countdown_solver target numbers = Some out
    ∧ out.2 ≠ []
    ∧ 0 ≤ out.1 ≤ Z.abs (n - target)
    ∧ ∀ c, c ∈ out.2 → diff target c = out.1.
Proof.
  intros Hn Hclose.
  destruct (countdown_solver_total target numbers) as (sol & Hsol & Hrun & _).
  eexists. split; [done|].
  assert (Calculation.singleton n ∈ Solutions.walk sol) as Hwalk.
  { eapply singleton_in_walk; [done|].
    by rewrite sorted_reverse_Permutation. }
  split_and!.
  - by eapply scan_nonempty.
  - apply scan_bounds. lia.
  - apply (scan_fst_lower_bound target _ _ Hwalk).
  - intros c Hc. rewrite scan_snd_filter in Hc.
    by apply list_elem_of_filter in Hc as [? _].
Qed.

Lemma result_when_a_number_is_close_witness :
  ∃ out,
    countdown_solver 15 [7; 5; 3] = Some out
    ∧ out.2 ≠ []
    ∧ 0 ≤ out.1 ≤ Z.abs (7 - 15)
    ∧ ∀ c, c ∈ out.2 → diff 15 c = out.1.
Proof.
  apply (result_when_a_number_is_close 15 [7; 5; 3] 7).
  - constructor.
  - simpl. lia.
Defined.

(** X14. The order in which the source numbers are given does not
    matter: they are sorted before anything else is done. *)
Theorem input_order_irrelevant (target : Z) (numbers numbers' : list Z) :
  numbers ≡ₚ numbers' →
  countdown_solver target numbers = countdown_solver target numbers'.
Proof.
  intros Hperm. unfold countdown_solver.
  assert (sorted_reverse numbers = sorted_reverse numbers') as ->; [|done].
  assert (Transitive Z.ge) by (intros x y z; lia).
  assert (Total Z.ge) by (intros x y; lia).
  assert (AntiSymm (=) Z.ge) by (intros x y; lia).
  unfold sorted_reverse.
  apply (StronglySorted_unique Z.ge).
  - apply StronglySorted_merge_sort; done.
  - apply StronglySorted_merge_sort; done.
  - by rewrite !merge_sort_Permutation.
Qed.

Lemma input_order_irrelevant_witness :
  countdown_solver 15 [3; 7; 5] = countdown_solver 15 [7; 5; 3].
Proof.
  apply (input_order_irrelevant 15 [3; 7; 5] [7; 5; 3]).
  apply perm_trans with [7; 3; 5]; [apply perm_swap|].
  apply perm_skip, perm_swap.
Defined.

(** X15. A negative target is reported back unchanged as the minimal
    difference, with no result at all, whatever the numbers are. *)
Theorem negative_target_no_result (target : Z) (numbers : list Z) :
  target < 0 → countdown_solver target numbers = Some (target, []).
Proof.
  intros Hneg.
  destruct (countdown_solver_total target numbers) as (sol & _ & -> & _).
  by rewrite scan_negative_target.
Qed.

Lemma negative_target_no_result_witness :
  countdown_solver (-5) [7; 5; 3] = Some (-5, []).
Proof. apply (negative_target_no_result (-5) [7; 5; 3]). lia. Defined.

